(** * Audio pipeline of the admission-bot voice client

    A shallow embedding of the numeric core of the repository:

    - [src/utils/audioUtils.ts]: [convertFloat32ToInt16], [downsampleBuffer],
      [floatTo16BitPCM], [base64ToFloat32], and the linear-interpolation
      [AudioProcessor];
    - [src/hooks/audioProcessor.ts]: the nearest-neighbour [AudioProcessor]
      with its accumulate-and-flush buffer;
    - [src/hooks/useVoiceClient.ts] and [src/app/hooks/useAudioRecorder.ts]:
      [playAudio], [scheduleAudioChunk], [stopAudioPlayback];
    - [calculateRMS], the voice-activity energy;
    - the PCM bytes on the wire (the [audio_data] branch of the worklet's
      [onmessage], [onaudioprocess]), the message handlers of the client
      ([ws.onmessage], [onended], the [vad_signal] branch), the transcript
      of [handleWebSocketMessage], [toggleRecording] and [formatTime].

    Numbers.  A JavaScript number is an IEEE-754 binary64 value; it is
    modelled by Rocq's primitive [float], whose operations are the binary64
    ones.  A [Float32Array] element is a [float] that went through [fround],
    an [Int16Array] element is a [Z] that went through [ToInt16].  This is
    the model of the PCM codec and of the capture processor, where the
    properties at stake are bit-exact.

    In [Resampler], [Capture], [Playback] and [Client] the sample
    positions, the sample rates and the playback times are exact rationals
    ([Q]), and the energy of a frame in [VAD] is a real number ([R]): what
    is proved of them there is what the rounding of the machine arithmetic
    does not change (sizes of chunks, order of messages and of playback
    units, ranges of samples).  [Resampler64] holds the resamplers of
    [audioUtils.ts] in binary64, position and ratio included; it is the
    model where the rounding matters, for the count of the output samples
    and the carry between two calls. *)

From Stdlib Require Import String.
From Stdlib Require Import ZArith QArith Qround Qabs Qpower List Bool Lia Lqa.
From Stdlib Require Import Floats Uint63 Zpower.
From Stdlib Require Import Reals.
Import ListNotations.

(* Decimal literals such as 0.005 denote the nearest binary64 value. *)
Set Warnings "-inexact-float".

Local Open Scope Z_scope.

(* ================================================================== *)
(** * ECMAScript numbers *)
(* ================================================================== *)

Module JS.

(** [ToNumber] of an integer small enough to be exact (|z| < 2^53). *)
Definition of_int (z : Z) : float :=
  match z with
  | Z0 => 0%float
  | Zpos _ => of_uint63 (Uint63.of_Z z)
  | Zneg p => (- of_uint63 (Uint63.of_Z (Zpos p)))%float
  end.

(** [Math.fround]: the store into a [Float32Array] rounds the binary64
    value to the nearest binary32 value (ties to even), which is then
    read back as a binary64. *)
Definition fround (x : float) : float :=
  match Prim2SF x with
  | S754_finite s m e => SF2Prim (binary_round 24 128 s m e)
  | _ => x
  end.

(** [truncate(ℝ(x))] of the language specification: the integer part of a
    finite number, rounding toward zero. *)
Definition truncate (x : float) : Z :=
  match Prim2SF x with
  | S754_finite s m e =>
      cond_Zopp s
        (match e with
         | Zneg p => Z.shiftr (Zpos m) (Zpos p)
         | _ => Z.shiftl (Zpos m) e
         end)
  | _ => 0
  end.

(** [ToInt16]: the store into an [Int16Array].  NaN, the infinities and
    the zeros give 0; other values are truncated and wrapped modulo 2^16
    into [-32768, 32767]. *)
Definition ToInt16 (x : float) : Z :=
  let int16bit := truncate x mod 65536 in
  if 32768 <=? int16bit then int16bit - 65536 else int16bit.

(** [Math.min] and [Math.max] on two arguments: NaN if either is NaN,
    and -0 is smaller than +0. *)
Definition Math_min (a b : float) : float :=
  match (a ?= b)%float with
  | FNotComparable => nan
  | FLt => a
  | FGt => b
  | FEq => if get_sign a then a else b
  end.

Definition Math_max (a b : float) : float :=
  match (a ?= b)%float with
  | FNotComparable => nan
  | FGt => a
  | FLt => b
  | FEq => if get_sign a then b else a
  end.

(** The exact rational value of a finite number (0 for NaN and the
    infinities, which the callers exclude). *)
Definition to_Q (x : float) : Q :=
  match Prim2SF x with
  | S754_finite s m e =>
      (inject_Z (cond_Zopp s (Zpos m)) * (2 ^ e))%Q
  | _ => 0%Q
  end.

(** [Math.round]: the nearest integer, ties toward +∞. *)
Definition Math_round (x : float) : Z := Qfloor (to_Q x + (1 # 2)).

Definition is_finite (x : float) : bool :=
  match Prim2SF x with
  | S754_finite _ _ _ | S754_zero _ => true
  | _ => false
  end.

End JS.

(** [a < b] on exact numbers. *)
Definition Qltb (a b : Q) : bool := negb (Qle_bool b a).

(** Typed arrays are lists; a store at an index inside the array replaces
    the element, a store outside is ignored (as typed arrays do). *)
Fixpoint store {A : Type} (arr : list A) (i : nat) (v : A) : list A :=
  match arr, i with
  | [], _ => []
  | _ :: tl, O => v :: tl
  | hd :: tl, S i' => hd :: store tl i' v
  end.

(* ================================================================== *)
(** * PCM codec ([src/utils/audioUtils.ts]) *)
(* ================================================================== *)

Module Codec.
Import JS.

(** The body of the loop of [convertFloat32ToInt16] (and of the inline
    copies in [AudioProcessor.flush] and [onaudioprocess]):
<<
    const s = Math.max(-1, Math.min(1, buffer[l]));
    buf[l] = s < 0 ? s * 0x8000 : s * 0x7FFF;
>>
    The assignment to the [Int16Array] element applies [ToInt16]. *)
Definition sample_to_int16 (v : float) : Z :=
  let s := Math_max (-1)%float (Math_min 1%float v) in
  ToInt16 (if (s <? 0)%float then (s * 0x8000)%float else (s * 0x7FFF)%float).

(** [while (l--) { ... buf[l] = ... }]: the index runs from the last
    element down to the first. *)
Fixpoint convert_loop (l : nat) (buffer : list float) (buf : list Z) : list Z :=
  match l with
  | O => buf
  | S l' => convert_loop l' buffer (store buf l' (sample_to_int16 (nth l' buffer nan)))
  end.

Definition convertFloat32ToInt16 (buffer : list float) : list Z :=
  let l := length buffer in
  convert_loop l buffer (repeat 0 l).

(** The decoder's element mapping in [base64ToFloat32]:
<<
    float32Array[i] = int16 < 0 ? int16 / 0x8000 : int16 / 0x7FFF;
>>
    The assignment to the [Float32Array] element applies [fround]. *)
Definition int16ToFloat (int16 : Z) : float :=
  fround (if int16 <? 0 then (of_int int16 / 0x8000)%float
          else (of_int int16 / 0x7FFF)%float).

(** [new Int16Array(bytes.buffer)]: pairs of bytes, low byte first; a
    buffer of odd length is a RangeError ([None]). *)
Fixpoint Int16Array_of_bytes (bytes : list Z) : option (list Z) :=
  match bytes with
  | [] => Some []
  | lo :: hi :: rest =>
      let u := lo + 256 * hi in
      option_map (cons (if 32768 <=? u then u - 65536 else u))
                 (Int16Array_of_bytes rest)
  | _ :: [] => None
  end.

(** [base64ToFloat32], from the char codes of [window.atob(base64)] on
    (the base64 alphabet itself is the platform's). *)
Definition base64ToFloat32 (binaryString : list Z) : option (list float) :=
  option_map (map int16ToFloat) (Int16Array_of_bytes binaryString).

(** The element of a [Float32Array] of sign [sg], mantissa [m] and
    exponent [e], that is the number [(-1)^sg * m * 2^e] for a valid
    binary32 triple ([SpecFloat.bounded 24 128 m e]), as the binary64 number it is
    read as. *)
Definition float32 (sg : bool) (m : positive) (e : Z) : float :=
  SF2Prim (binary_round 53 1024 sg m e).

(** What the specification asks of the encoder, in its words: clamp to
    [-1, 1], then round to the nearest integer. *)
Definition floatToInt16_rounding (v : float) : Z :=
  let s := Math_max (-1)%float (Math_min 1%float v) in
  Math_round (if (s <? 0)%float then (s * 0x8000)%float else (s * 0x7FFF)%float).

Definition int16_range (x : Z) : Prop := -32768 <= x <= 32767.

(** The round trip of one sample is exact below zero and loses at most
    one unit, never gains, from zero on. *)
Definition roundtrip_ok (x y : Z) : bool :=
  if x <? 0 then y =? x else (x - 1 <=? y) && (y <=? x).

Fixpoint roundtrip_check (n : nat) (x : Z) : bool :=
  match n with
  | O => true
  | S n' => roundtrip_ok x (sample_to_int16 (int16ToFloat x)) && roundtrip_check n' (x + 1)
  end.

End Codec.

(* ================================================================== *)
(** * Resamplers ([src/utils/audioUtils.ts]) in exact arithmetic *)
(* ================================================================== *)

Module Resampler.
Local Open Scope Q_scope.

(** A number of the exact model: a rational or NaN.  NaN is what [0 / 0]
    and arithmetic on a missing array element give. *)
Inductive num := NaN | Fin (q : Q).

Definition add (a b : num) : num :=
  match a, b with
  | Fin x, Fin y => Fin (x + y)
  | _, _ => NaN
  end.

(** [accum / count] for a count of loop iterations: [0 / 0] is NaN
    ([accum] is 0 whenever [count] is). *)
Definition div_count (accum : num) (count : Z) : num :=
  if (count =? 0)%Z then NaN
  else match accum with
       | Fin a => Fin (a / inject_Z count)
       | NaN => NaN
       end.


(** [buffer[i]] in an arithmetic context: outside the array it is
    [undefined], which adds up to NaN. *)
Definition get (buffer : list num) (i : Z) : num :=
  if (i <? 0)%Z then NaN else nth (Z.to_nat i) buffer NaN.

(** [Math.round] on an exact value: ties toward +∞. *)
Definition Math_round (x : Q) : Z := Qfloor (x + (1 # 2)).

Inductive outcome (A : Type) :=
| Returned (a : A)
| Thrown (message : string).
Arguments Returned {A} a.
Arguments Thrown {A} message.

(** The inner [for] loop of [downsampleBuffer]:
<<
    for (let i = offsetBuffer; i < nextOffsetBuffer && i < buffer.length; i++) {
      accum += buffer[i]; count++;
    }
>>
    It is run with as many steps as separate [offsetBuffer] from
    [nextOffsetBuffer]. *)
Fixpoint for_loop (steps : nat) (buffer : list num) (nextOffsetBuffer i : Z)
         (accum : num) (count : Z) : num * Z :=
  match steps with
  | O => (accum, count)
  | S steps' =>
      if ((i <? nextOffsetBuffer) && (i <? Z.of_nat (length buffer)))%Z
      then for_loop steps' buffer nextOffsetBuffer (i + 1)%Z
                    (add accum (get buffer i)) (count + 1)%Z
      else (accum, count)
  end.

(** The window of one output sample: the sum and the number of the
    input samples from [offsetBuffer] up to [nextOffsetBuffer]. *)
Definition window (buffer : list num) (offsetBuffer nextOffsetBuffer : Z) : num * Z :=
  for_loop (Z.to_nat (nextOffsetBuffer - offsetBuffer)) buffer
           nextOffsetBuffer offsetBuffer (Fin 0) 0%Z.

(** The outer [while (offsetResult < result.length)] loop; [remaining] is
    [result.length - offsetResult], and the elements of [result] are
    produced in the order the loop writes them. *)
Fixpoint while_loop (remaining : nat) (buffer : list num) (sampleRateRatio : Q)
         (offsetResult offsetBuffer : Z) : list num :=
  match remaining with
  | O => []
  | S remaining' =>
      let nextOffsetBuffer :=
        Math_round (inject_Z (offsetResult + 1) * sampleRateRatio) in
      let '(accum, count) := window buffer offsetBuffer nextOffsetBuffer in
      div_count accum count
        :: while_loop remaining' buffer sampleRateRatio (offsetResult + 1)%Z nextOffsetBuffer
  end.

Definition downsampleBuffer (buffer : list num) (sampleRate outSampleRate : Q)
  : outcome (list num) :=
  if Qeq_bool outSampleRate sampleRate then Returned buffer
  else if Qltb sampleRate outSampleRate then
    Thrown "downsampling rate show be smaller than original sample rate"
  else
    let sampleRateRatio := sampleRate / outSampleRate in
    let newLength := Math_round (inject_Z (Z.of_nat (length buffer)) / sampleRateRatio) in
    if (newLength <? 0)%Z then Thrown "RangeError: Invalid typed array length"
    else Returned (while_loop (Z.to_nat newLength) buffer sampleRateRatio 0 0).


Definition sum (l : list num) : num := fold_left add l (Fin 0).

(* ---------------------------------------------------------------- *)
(** ** The linear-interpolation [AudioProcessor] *)

(** [channelData[i]] of finite samples; an index outside reads as 0 here,
    and the loop below never reads outside. *)
Definition sample_at (channelData : list Q) (i : Z) : Q :=
  if (i <? 0)%Z then 0 else nth (Z.to_nat i) channelData 0.

(** One pass of the body of the [while] loop of [process]: the value
    written to [this.buffer]. *)
Definition interpolate (channelData : list Q) (residue : Q) : Q :=
  let i := Qfloor residue in
  let decimal := residue - inject_Z i in
  let s0 := sample_at channelData i in
  let s1 := if (i + 1 <? Z.of_nat (length channelData))%Z
            then sample_at channelData (i + 1) else s0 in
  s0 + (s1 - s0) * decimal.

(** [while (this.residue < channelData.length) { ...; this.residue += ratio }].
    The samples go to [this.buffer] in this order (the accumulate and
    flush code is that of [Capture] below). [None]: the loop has not
    ended within [fuel] passes. *)
Fixpoint interpolate_loop (fuel : nat) (channelData : list Q) (ratio residue : Q)
  : option (list Q * Q) :=
  if Qltb residue (inject_Z (Z.of_nat (length channelData))) then
    match fuel with
    | O => None
    | S fuel' =>
        match interpolate_loop fuel' channelData ratio (residue + ratio) with
        | Some (out, residue') => Some (interpolate channelData residue :: out, residue')
        | None => None
        end
    end
  else Some ([], residue).

(** The number of passes of the loop, for a positive ratio. *)
Definition passes (len : Z) (ratio residue : Q) : nat :=
  Z.to_nat (Qceiling ((inject_Z len - residue) / ratio)).

(** The resampling part of [process]: the samples produced and the
    residue kept for the next call,
    [this.residue -= channelData.length]. *)
Definition process_linear (inputSampleRate targetSampleRate : Z)
           (channelData : list Q) (residue : Q) : option (list Q * Q) :=
  let ratio := inject_Z inputSampleRate / inject_Z targetSampleRate in
  let len := Z.of_nat (length channelData) in
  match interpolate_loop (passes len ratio residue) channelData ratio residue with
  | Some (out, residue') => Some (out, residue' - inject_Z len)
  | None => None
  end.

End Resampler.
(* ================================================================== *)
(** * Capture processor ([src/hooks/audioProcessor.ts]) *)
(* ================================================================== *)

Module Capture.
Import JS.

(** What the processor posts on its port. *)
Inductive message :=
| vad_signal
| volume (data : float)
| audio_data (data : list Z).

(** The fields of the [AudioProcessor] object; [port] is the list of the
    messages posted so far, oldest first.  Samples are binary64 numbers
    (the elements of [Float32Array]s); the read position [residue] is an
    exact number. *)
Record AudioProcessor := {
  targetSampleRate : Z;
  vadThreshold : float;
  chunkSize : nat;
  buffer : list float;
  bufferIndex : nat;
  volumeSkipCounter : Z;
  residue : Q;
  port : list message
}.

Definition constructor : AudioProcessor :=
  {| targetSampleRate := 16000;
     vadThreshold := 0.005%float;
     chunkSize := 512;
     buffer := repeat 0%float 512;
     bufferIndex := 0;
     volumeSkipCounter := 0;
     residue := 0;
     port := [] |}.

Definition postMessage (m : message) (st : AudioProcessor) : AudioProcessor :=
  {| targetSampleRate := targetSampleRate st; vadThreshold := vadThreshold st;
     chunkSize := chunkSize st; buffer := buffer st; bufferIndex := bufferIndex st;
     volumeSkipCounter := volumeSkipCounter st; residue := residue st;
     port := port st ++ [m] |}.

Definition set_bufferIndex (i : nat) (st : AudioProcessor) : AudioProcessor :=
  {| targetSampleRate := targetSampleRate st; vadThreshold := vadThreshold st;
     chunkSize := chunkSize st; buffer := buffer st; bufferIndex := i;
     volumeSkipCounter := volumeSkipCounter st; residue := residue st;
     port := port st |}.

Definition set_buffer (b : list float) (st : AudioProcessor) : AudioProcessor :=
  {| targetSampleRate := targetSampleRate st; vadThreshold := vadThreshold st;
     chunkSize := chunkSize st; buffer := b; bufferIndex := bufferIndex st;
     volumeSkipCounter := volumeSkipCounter st; residue := residue st;
     port := port st |}.

Definition set_volumeSkipCounter (c : Z) (st : AudioProcessor) : AudioProcessor :=
  {| targetSampleRate := targetSampleRate st; vadThreshold := vadThreshold st;
     chunkSize := chunkSize st; buffer := buffer st; bufferIndex := bufferIndex st;
     volumeSkipCounter := c; residue := residue st;
     port := port st |}.

Definition set_residue (r : Q) (st : AudioProcessor) : AudioProcessor :=
  {| targetSampleRate := targetSampleRate st; vadThreshold := vadThreshold st;
     chunkSize := chunkSize st; buffer := buffer st; bufferIndex := bufferIndex st;
     volumeSkipCounter := volumeSkipCounter st; residue := r;
     port := port st |}.

(** [flush]: the first [chunkSize] elements of the buffer, converted as
    in [convertFloat32ToInt16], are posted; the buffer restarts at 0. *)
Definition flush (st : AudioProcessor) : AudioProcessor :=
  let int16Data :=
    map (fun i => Codec.sample_to_int16 (nth i (buffer st) nan))
        (seq 0 (chunkSize st)) in
  set_bufferIndex 0 (postMessage (audio_data int16Data) st).

(** [this.buffer[this.bufferIndex++] = v; if (this.bufferIndex >=
    this.chunkSize) this.flush();] *)
Definition push (v : float) (st : AudioProcessor) : AudioProcessor :=
  let st1 := set_bufferIndex (S (bufferIndex st))
               (set_buffer (store (buffer st) (bufferIndex st) v) st) in
  if (chunkSize st1 <=? bufferIndex st1)%nat then flush st1 else st1.

(** The energy of the raw frame, in binary64 arithmetic. *)
Definition frame_rms (channelData : list float) : float :=
  let sum := fold_left (fun sum x => (sum + x * x)%float) channelData 0%float in
  PrimFloat.sqrt (sum / of_int (Z.of_nat (length channelData))).

(** [channelData[i]]; outside the array it is [undefined], stored as NaN. *)
Definition sample_at (channelData : list float) (i : Z) : float :=
  if (i <? 0)%Z then nan else nth (Z.to_nat i) channelData nan.

(** The nearest-neighbour loop,
<<
    while (this.residue < channelData.length) {
      const i = Math.floor(this.residue);
      if (i < channelData.length) { push channelData[i] }
      this.residue += ratio;
    }
>>
    run for at most [fuel] passes. *)
Fixpoint nearest_loop (fuel : nat) (channelData : list float) (ratio : Q)
         (st : AudioProcessor) : AudioProcessor :=
  match fuel with
  | O => st
  | S fuel' =>
      if Qltb (residue st) (inject_Z (Z.of_nat (length channelData))) then
        let i := Qfloor (residue st) in
        let st1 := if (i <? Z.of_nat (length channelData))%Z
                   then push (sample_at channelData i) st else st in
        nearest_loop fuel' channelData ratio
                     (set_residue (residue st1 + ratio) st1)
      else st
  end.

(** Step 1 of [process]: the VAD signal, posted at once when the energy
    of the raw frame exceeds the threshold, and the throttled volume
    message. *)
Definition vad_stage (channelData : list float) (st : AudioProcessor)
  : AudioProcessor :=
  let rms := frame_rms channelData in
  let st := if (vadThreshold st <? rms)%float
            then postMessage vad_signal st else st in
  let st := set_volumeSkipCounter (volumeSkipCounter st + 1) st in
  if (3 <=? volumeSkipCounter st)%Z
  then set_volumeSkipCounter 0 (postMessage (volume rms) st)
  else st.

Definition push_all (samples : list float) (st : AudioProcessor) : AudioProcessor :=
  fold_left (fun st v => push v st) samples st.

(** [process(inputs)] for [input = inputs[0]], the list of the channels,
    at the sample rate [sampleRate] of the worklet scope.  The loop is
    given the passes it needs for a positive ratio
    ([Resampler.passes]). *)
Definition process (sampleRate : Z) (input : list (list float))
           (st : AudioProcessor) : AudioProcessor :=
  match input with
  | [] => st
  | channelData :: _ =>
      let st := vad_stage channelData st in
      let ratio := (inject_Z sampleRate / inject_Z (targetSampleRate st))%Q in
      if Qeq_bool ratio 1 then
        push_all channelData st
      else
        let len := Z.of_nat (length channelData) in
        let st := nearest_loop (Resampler.passes len ratio (residue st))
                               channelData ratio st in
        set_residue (residue st - inject_Z len) st
  end.

(** The chunks posted so far. *)
Definition emitted (st : AudioProcessor) : list (list Z) :=
  flat_map (fun m => match m with audio_data d => [d] | _ => [] end) (port st).

(** A run of capture callbacks. *)
Fixpoint run (sampleRate : Z) (callbacks : list (list (list float)))
         (st : AudioProcessor) : AudioProcessor :=
  match callbacks with
  | [] => st
  | input :: rest => run sampleRate rest (process sampleRate input st)
  end.

(** The samples the resampling step of one callback delivers, as a
    function of the frame and of the residue alone. *)
Fixpoint nearest_samples (fuel : nat) (channelData : list float) (ratio residue : Q)
  : list float :=
  match fuel with
  | O => []
  | S fuel' =>
      if Qltb residue (inject_Z (Z.of_nat (length channelData))) then
        let i := Qfloor residue in
        (if (i <? Z.of_nat (length channelData))%Z
         then [sample_at channelData i] else [])
          ++ nearest_samples fuel' channelData ratio (residue + ratio)
      else []
  end.

Definition resampled (sampleRate : Z) (input : list (list float))
           (st : AudioProcessor) : list float :=
  match input with
  | [] => []
  | channelData :: _ =>
      let ratio := (inject_Z sampleRate / inject_Z (targetSampleRate st))%Q in
      if Qeq_bool ratio 1 then channelData
      else nearest_samples
             (Resampler.passes (Z.of_nat (length channelData)) ratio (residue st))
             channelData ratio (residue st)
  end.

(** The resampled stream of a run of callbacks. *)
Fixpoint resampled_stream (sampleRate : Z) (callbacks : list (list (list float)))
         (st : AudioProcessor) : list float :=
  match callbacks with
  | [] => []
  | input :: rest =>
      resampled sampleRate input st
        ++ resampled_stream sampleRate rest (process sampleRate input st)
  end.

(** The invariant of the accumulation buffer. *)
Definition well_formed (st : AudioProcessor) : Prop :=
  (0 < chunkSize st)%nat /\
  (bufferIndex st < chunkSize st)%nat /\
  length (buffer st) = chunkSize st.

End Capture.
(* ================================================================== *)
(** * Voice activity energy ([calculateRMS]) over the reals *)
(* ================================================================== *)

Module VAD.
Local Open Scope R_scope.

(** [calculateRMS] (and the same loop inlined in [AudioProcessor.process],
    which [Capture.frame_rms] runs in binary64), on a non-empty frame of
    real samples:
<<
    let sum = 0;
    for (let i = 0; i < inputBuffer.length; i++) sum += inputBuffer[i] * inputBuffer[i];
    return Math.sqrt(sum / inputBuffer.length);
>>
*)
Definition calculateRMS (inputBuffer : list R) : R :=
  let sum := fold_left (fun sum x => sum + x * x) inputBuffer 0 in
  sqrt (sum / INR (length inputBuffer)).

(** [rms > VAD_THRESHOLD] *)
Definition speech_detected (threshold : R) (inputBuffer : list R) : Prop :=
  calculateRMS inputBuffer > threshold.

(** The frame with every sample multiplied by [c]. *)
Definition scale (c : R) (frame : list R) : list R := map (Rmult c) frame.

End VAD.
(* ================================================================== *)
(** * Playback scheduler ([src/hooks/useVoiceClient.ts],
      [src/app/hooks/useAudioRecorder.ts]) *)
(* ================================================================== *)

Module Playback.
Local Open Scope Q_scope.

Definition RECEIVE_SAMPLE_RATE : Z := 22000.

Inductive SpeakingState := idle | listening | speaking.

(** An [AudioBufferSourceNode]: its identity (the order of creation) and
    the duration of the buffer it plays, [length / sampleRate]. *)
Record SourceNode := { node_id : nat; node_duration : Q }.

(** The [AudioContext], reduced to its clock. *)
Record AudioContext := { currentTime : Q }.

(** The refs of [useVoiceClient] that playback reads and writes, with the
    calls made on the audio engine: [started] logs [source.start(when)],
    [stopped] logs [source.stop()]. *)
Record VoiceClient := {
  audioContextRef : option AudioContext;
  nextStartTimeRef : Q;
  activeSourceNodesRef : list SourceNode;
  isAIRespondingRef : bool;
  speakingState : SpeakingState;
  created : nat;
  started : list (SourceNode * Q);
  stopped : list SourceNode
}.

Definition buffer_duration (float32Data : list float) (sampleRate : Z) : Q :=
  inject_Z (Z.of_nat (length float32Data)) / inject_Z sampleRate.

(** [playAudio], after [base64ToFloat32] ([Codec.base64ToFloat32]) has
    decoded the message.  Without an audio context it returns at once;
    [createBuffer] refuses a buffer of no frames before any ref is
    written. *)
Definition playAudio (float32Data : list float) (st : VoiceClient) : VoiceClient :=
  match audioContextRef st with
  | None => st
  | Some ctx =>
      match float32Data with
      | [] => st
      | _ :: _ =>
          let source := {| node_id := created st;
                           node_duration := buffer_duration float32Data RECEIVE_SAMPLE_RATE |} in
          let now := currentTime ctx in
          let nextStartTime :=
            if Qltb (nextStartTimeRef st) now then now else nextStartTimeRef st in
          {| audioContextRef := audioContextRef st;
             nextStartTimeRef := nextStartTime + node_duration source;
             activeSourceNodesRef := activeSourceNodesRef st ++ [source];
             isAIRespondingRef := isAIRespondingRef st;
             speakingState := speakingState st;
             created := S (created st);
             started := started st ++ [(source, nextStartTime)];
             stopped := stopped st |}
      end
  end.

(** [stopAudioPlayback]: stop every tracked node, forget them, reset the
    schedule to the clock (when there is a context), and leave the
    speaking state. *)
Definition stopAudioPlayback (st : VoiceClient) : VoiceClient :=
  {| audioContextRef := audioContextRef st;
     nextStartTimeRef :=
       match audioContextRef st with
       | Some ctx => currentTime ctx
       | None => nextStartTimeRef st
       end;
     activeSourceNodesRef := [];
     isAIRespondingRef := false;
     speakingState :=
       match speakingState st with speaking => listening | prev => prev end;
     created := created st;
     started := started st;
     stopped := stopped st ++ activeSourceNodesRef st |}.

(** The passing of time: the engine advances the clock of the context. *)
Definition at_time (now : Q) (st : VoiceClient) : VoiceClient :=
  {| audioContextRef := option_map (fun _ => {| currentTime := now |}) (audioContextRef st);
     nextStartTimeRef := nextStartTimeRef st;
     activeSourceNodesRef := activeSourceNodesRef st;
     isAIRespondingRef := isAIRespondingRef st;
     speakingState := speakingState st;
     created := created st;
     started := started st;
     stopped := stopped st |}.

(** The start time given to the node created last. *)
Definition last_start (st : VoiceClient) : option Q :=
  option_map snd (last (map Some (started st)) None).

(** [scheduleAudioChunk] of the [VoiceChat] component keeps only the
    schedule; its context is created on first use, so the clock is always
    there.  The lookahead is the literal [0.05]. *)
Record VoiceChat := {
  vc_nextStartTimeRef : Q;
  vc_started : list (Q * Q)      (* (when, duration) of each [source.start] *)
}.

Definition scheduleAudioChunk (currentTime : Q) (float32Data : list float)
           (st : VoiceChat) : VoiceChat :=
  match float32Data with
  | [] => st
  | _ :: _ =>
      let duration := buffer_duration float32Data 22000 in
      let nextStartTime :=
        if Qltb (vc_nextStartTimeRef st) currentTime
        then currentTime + (5 # 100) else vc_nextStartTimeRef st in
      {| vc_nextStartTimeRef := nextStartTime + duration;
         vc_started := vc_started st ++ [(nextStartTime, duration)] |}
  end.

(** The scheduling rule of the specification, with the lookahead [epsilon]
    as a parameter: the start time of the unit and the next start time. *)
Definition schedule_rule (epsilon now nextStartTime d : Q) : Q * Q :=
  let start := if Qltb nextStartTime now then now + epsilon else nextStartTime in
  (start, start + d).

End Playback.
(* ================================================================== *)
(** * The PCM bytes on the wire ([src/hooks/useVoiceClient.ts],
      [src/app/hooks/useAudioRecorder.ts]) *)
(* ================================================================== *)

Module Wire.
Import JS.

(** [new Uint8Array(int16Data.buffer)]: the two bytes of each element,
    low byte first, in two's complement. *)
Definition bytes_of_int16 (x : Z) : list Z := [x mod 256; (x / 256) mod 256].

Definition Uint8Array_of_buffer (int16Data : list Z) : list Z :=
  flat_map bytes_of_int16 int16Data.

(** [for (let i = 0; i < len; i++) binary += String.fromCharCode(bytes[i])]:
    the string is kept as the list of its char codes. *)
Fixpoint binary_loop (bytes : list Z) (binary : list Z) : list Z :=
  match bytes with
  | [] => binary
  | b :: rest => binary_loop rest (binary ++ [b])
  end.

(** [window.btoa] throws on a char code above 255. *)
Definition btoa_accepts (binary : list Z) : bool :=
  forallb (fun c => (0 <=? c) && (c <? 256)) binary.

(** The [audio_data] branch of the worklet's [onmessage]: the string given
    to [btoa]. *)
Definition audio_data_binary (int16Data : list Z) : list Z :=
  binary_loop (Uint8Array_of_buffer int16Data) [].

(** The conversion loop of [onaudioprocess],
<<
    for (let i = 0; i < inputData.length; i++) {
      const s = Math.max(-1, Math.min(1, inputData[i]));
      pcmData[i] = s < 0 ? s * 0x8000 : s * 0x7FFF;
    }
>>
    run for [n] passes from the index [i]. *)
Fixpoint pcm_loop (n i : nat) (inputData : list float) (pcmData : list Z) : list Z :=
  match n with
  | O => pcmData
  | S n' =>
      if (i <? length inputData)%nat then
        pcm_loop n' (S i) inputData
                 (store pcmData i (Codec.sample_to_int16 (nth i inputData nan)))
      else pcmData
  end.

(** [onaudioprocess] of [useAudioRecorder]: the string given to [btoa]. *)
Definition onaudioprocess (inputData : list float) : list Z :=
  let pcmData := pcm_loop (length inputData) 0 inputData
                          (repeat 0 (length inputData)) in
  binary_loop (Uint8Array_of_buffer pcmData) [].

(** The value of a number times [2^80], when that is an integer (as it is
    for the samples the decoder gives). *)
Definition scaled (v : float) : option Z :=
  match Prim2SF v with
  | S754_zero _ => Some 0
  | S754_finite s m e =>
      if 0 <=? e + 80 then Some (cond_Zopp s (Z.shiftl (Zpos m) (e + 80))) else None
  | _ => None
  end.

(** The decoder on [n] consecutive integers from [x]: each value, times
    [2^80], is an integer above that of the integer before ([prev]) and
    at most [2^80]. *)
Fixpoint decoder_check (n : nat) (x : Z) (prev : Z) : bool :=
  match n with
  | O => true
  | S n' =>
      match scaled (Codec.int16ToFloat x) with
      | Some z => (prev <? z) && (z <=? 2 ^ 80) && decoder_check n' (x + 1) z
      | None => false
      end
  end.

End Wire.

(* ================================================================== *)
(** * The handlers of [useVoiceClient] and of the [VoiceChat] component
      ([src/hooks/useVoiceClient.ts], [src/app/hooks/useAudioRecorder.ts]) *)
(* ================================================================== *)

Module Client.
Import Playback.
Local Open Scope Q_scope.

Definition set_responding (b : bool) (st : VoiceClient) : VoiceClient :=
  {| audioContextRef := audioContextRef st;
     nextStartTimeRef := nextStartTimeRef st;
     activeSourceNodesRef := activeSourceNodesRef st;
     isAIRespondingRef := b;
     speakingState := speakingState st;
     created := created st;
     started := started st;
     stopped := stopped st |}.

Definition setSpeakingState (f : SpeakingState -> SpeakingState) (st : VoiceClient)
  : VoiceClient :=
  {| audioContextRef := audioContextRef st;
     nextStartTimeRef := nextStartTimeRef st;
     activeSourceNodesRef := activeSourceNodesRef st;
     isAIRespondingRef := isAIRespondingRef st;
     speakingState := f (speakingState st);
     created := created st;
     started := started st;
     stopped := stopped st |}.

Definition set_active (nodes : list SourceNode) (st : VoiceClient) : VoiceClient :=
  {| audioContextRef := audioContextRef st;
     nextStartTimeRef := nextStartTimeRef st;
     activeSourceNodesRef := nodes;
     isAIRespondingRef := isAIRespondingRef st;
     speakingState := speakingState st;
     created := created st;
     started := started st;
     stopped := stopped st |}.

(** [s !== source] on nodes: a node is the object its creation made. *)
Definition same_node (s source : SourceNode) : bool :=
  Nat.eqb (node_id s) (node_id source).

(** [ws.onmessage] on [{type: 'audio'}], from the char codes of the
    decoded string on: the flag and the state are set first; an error of
    [base64ToFloat32] or of [createBuffer] inside [playAudio] is caught
    by the handler. *)
Definition on_audio (binaryString : list Z) (st : VoiceClient) : VoiceClient :=
  let st := setSpeakingState (fun _ => speaking) (set_responding true st) in
  match audioContextRef st with
  | None => st
  | Some _ =>
      match Codec.base64ToFloat32 binaryString with
      | None => st
      | Some float32Data => playAudio float32Data st
      end
  end.

(** [ws.onmessage] on [{type: 'turn_complete'}]. *)
Definition on_turn_complete (st : VoiceClient) : VoiceClient :=
  if isAIRespondingRef st then st else setSpeakingState (fun _ => idle) st.

(** The worklet's [onmessage] on [{type: 'vad_signal'}]. *)
Definition on_vad_signal (st : VoiceClient) : VoiceClient :=
  if isAIRespondingRef st then stopAudioPlayback st else st.

(** [source.onended]: the node leaves the tracked ones; when at most
    [0.1] of scheduled audio remains, the flag is cleared (the timer it
    sets is [on_timer]).  The clock is that of the context the node was
    created in. *)
Definition on_ended (source : SourceNode) (st : VoiceClient) : VoiceClient :=
  let st := set_active
              (filter (fun s => negb (same_node s source)) (activeSourceNodesRef st))
              st in
  match audioContextRef st with
  | None => st
  | Some ctx =>
      let timeRemaining := nextStartTimeRef st - currentTime ctx in
      if Qle_bool timeRemaining (1 # 10) then set_responding false st else st
  end.

(** The timer of [onended]: [setSpeakingState(prev => prev === 'speaking'
    ? 'idle' : prev)]. *)
Definition on_timer (st : VoiceClient) : VoiceClient :=
  setSpeakingState (fun prev => match prev with speaking => idle | _ => prev end) st.

(** What can happen to the client, in the order it happens. *)
Inductive event :=
| audio (binaryString : list Z)
| turn_complete
| vad_signal
| ended (source : SourceNode)
| timer
| clock (now : Q).

Definition handle (e : event) (st : VoiceClient) : VoiceClient :=
  match e with
  | audio binaryString => on_audio binaryString st
  | turn_complete => on_turn_complete st
  | vad_signal => on_vad_signal st
  | ended source => on_ended source st
  | timer => on_timer st
  | clock now => at_time now st
  end.

Definition handle_all (events : list event) (st : VoiceClient) : VoiceClient :=
  fold_left (fun st e => handle e st) events st.

(** The client before any audio: a context, nothing scheduled. *)
Definition fresh (now : Q) : VoiceClient :=
  {| audioContextRef := Some {| currentTime := now |};
     nextStartTimeRef := 0;
     activeSourceNodesRef := [];
     isAIRespondingRef := false;
     speakingState := idle;
     created := 0;
     started := [];
     stopped := [] |}.

(* ---------------------------------------------------------------- *)
(** ** The [VoiceChat] component *)

(** What [toggleRecording] does to the playback schedule: outside the
    disconnected status, stopping the recording resets
    [nextStartTimeRef] to 0. *)
Definition toggleRecording (disconnected isRecording : bool) (st : VoiceChat)
  : VoiceChat :=
  if disconnected then st
  else if isRecording
       then {| vc_nextStartTimeRef := 0; vc_started := vc_started st |}
       else st.

(** A run of [scheduleAudioChunk], each chunk with the clock it is
    scheduled at. *)
Definition schedule_all (chunks : list (Q * list float)) (st : VoiceChat) : VoiceChat :=
  fold_left (fun st c => scheduleAudioChunk (fst c) (snd c) st) chunks st.

Inductive MessageType := user | assistant | system.

Record Message := { id : string; type : MessageType; text : string }.

Definition MessageType_eqb (a b : MessageType) : bool :=
  match a, b with
  | user, user | assistant, assistant | system, system => true
  | _, _ => false
  end.

(** The [transcription] branch of [handleWebSocketMessage]: the state
    update of [setMessages]; [now] is [Date.now().toString()]. *)
Definition on_transcription (now : string) (data_source data_text : string)
           (prev : list Message) : list Message :=
  let source := if String.eqb data_source "user" then user else assistant in
  if String.eqb data_text "" then prev
  else
    match last (map Some prev) None with
    | Some last =>
        if String.eqb (text last) data_text && MessageType_eqb (type last) source
        then prev
        else prev ++ [{| id := now; type := source; text := data_text |}]
    | None => prev ++ [{| id := now; type := source; text := data_text |}]
    end.

End Client.

(* ================================================================== *)
(** * The session timer of the [VoiceChat] page *)
(* ================================================================== *)

From Stdlib Require DecimalString.

Module UI.
Import Ascii.
Local Open Scope string_scope.
Local Open Scope N_scope.

Definition SESSION_DURATION : N := 30 * 60.

(** [n.toString()] of an integer that is not negative. *)
Definition toString (n : N) : string :=
  DecimalString.NilZero.string_of_uint (N.to_uint n).

Fixpoint zeros (n : nat) : string :=
  match n with
  | O => ""
  | S n' => String "0"%char (zeros n')
  end.

(** [s.padStart(targetLength, '0')]. *)
Definition padStart (targetLength : nat) (s : string) : string :=
  zeros (targetLength - String.length s) ++ s.

(** [formatTime(seconds)] for a whole number of seconds:
<<
    const mins = Math.floor(seconds / 60);
    const secs = seconds % 60;
    return `${mins.toString().padStart(2, '0')}:${secs.toString().padStart(2, '0')}`;
>> *)
Definition formatTime (seconds : N) : string :=
  let mins := seconds / 60 in
  let secs := seconds mod 60 in
  padStart 2 (toString mins) ++ ":" ++ padStart 2 (toString secs).

(** Reading a time back: two digits, a colon, two digits below 60. *)
Definition digit_value (c : ascii) : option N :=
  let n := N_of_ascii c in
  if (48 <=? n) && (n <=? 57) then Some (n - 48) else None.

Definition readTime (s : string) : option N :=
  match s with
  | String m1 (String m0 (String ":"%char (String s1 (String s0 EmptyString)))) =>
      match digit_value m1, digit_value m0, digit_value s1, digit_value s0 with
      | Some a, Some b, Some c, Some d =>
          if c <? 6 then Some (60 * (10 * a + b) + (10 * c + d)) else None
      | _, _, _, _ => None
      end
  | _ => None
  end.

(** The [n] times from [seconds] on are read back. *)
Fixpoint formatTime_check (n : nat) (seconds : N) : bool :=
  match n with
  | O => true
  | S n' =>
      match readTime (formatTime seconds) with
      | Some back => (back =? seconds) && formatTime_check n' (seconds + 1)
      | None => false
      end
  end.

End UI.

(* ================================================================== *)
(** * Resamplers ([src/utils/audioUtils.ts]) in binary64 arithmetic *)
(* ================================================================== *)

(** The same code as in [Resampler], with every number the binary64 value
    the code computes: the ratio is a rounded quotient, the read position
    is accumulated with a rounding at every addition, and the results are
    stored into a [Float32Array]. *)
Module Resampler64.
Import JS.

(** [Math.floor]: a finite number whose exponent is not negative is an
    integer already; the floor of any other finite number is below 2^52 in
    magnitude, hence exact; zeros, NaN and the infinities are returned
    as they are. *)
Definition Math_floor (x : float) : float :=
  match Prim2SF x with
  | S754_finite _ _ e => if e <? 0 then of_int (Qfloor (to_Q x)) else x
  | _ => x
  end.

(** [channelData[i]] for a number [i]: the element when [i] is an index
    of the array (-0 is the index 0), and [undefined] otherwise, which the
    arithmetic around it reads as NaN. *)
Definition element (channelData : list float) (i : float) : float :=
  if is_finite i then
    let z := Qfloor (to_Q i) in
    if Qeq_bool (to_Q i) (inject_Z z) && (0 <=? z)
    then nth (Z.to_nat z) channelData nan
    else nan
  else nan.

(* ---------------------------------------------------------------- *)
(** ** The linear-interpolation [AudioProcessor] *)

(** One pass of the body of the [while] loop of [process]:
<<
    const i = Math.floor(this.residue);
    const decimal = this.residue - i;
    const s0 = channelData[i];
    const s1 = (i + 1 < channelData.length) ? channelData[i+1] : s0;
    const result = s0 + (s1 - s0) * decimal;
>> *)
Definition interpolate (channelData : list float) (residue : float) : float :=
  let i := Math_floor residue in
  let decimal := (residue - i)%float in
  let s0 := element channelData i in
  let s1 := if (i + 1 <? of_int (Z.of_nat (length channelData)))%float
            then element channelData (i + 1)%float else s0 in
  (s0 + (s1 - s0) * decimal)%float.

(** [while (this.residue < channelData.length) { ...; this.residue += ratio }],
    run for at most [fuel] passes: the samples stored into [this.buffer]
    (a [Float32Array]) by the passes that were run, in this order, and the
    residue at the exit of the loop, or [None] when the loop has not ended
    within [fuel] passes. *)
Fixpoint interpolate_loop (fuel : nat) (channelData : list float) (ratio residue : float)
  : list float * option float :=
  if (residue <? of_int (Z.of_nat (length channelData)))%float then
    match fuel with
    | O => ([], None)
    | S fuel' =>
        let '(out, last) :=
          interpolate_loop fuel' channelData ratio (residue + ratio)%float in
        (fround (interpolate channelData residue) :: out, last)
    end
  else ([], Some residue).

(** The resampling part of [process], for the sample rate
    [inputSampleRate] of the worklet scope: the samples produced and the
    residue kept for the next call,
    [this.residue -= channelData.length]. *)
Definition process_linear (fuel : nat) (inputSampleRate targetSampleRate : Z)
           (channelData : list float) (residue : float)
  : option (list float * float) :=
  let ratio := (of_int inputSampleRate / of_int targetSampleRate)%float in
  match interpolate_loop fuel channelData ratio residue with
  | (out, Some residue') =>
      Some (out, (residue' - of_int (Z.of_nat (length channelData)))%float)
  | (_, None) => None
  end.



(* ---------------------------------------------------------------- *)
(** ** [downsampleBuffer] *)

(** [new Float32Array(Math.round(length / sampleRateRatio))]: the length
    of the array, or [None] for the RangeError of a length that is
    negative, infinite or above 2^53 - 1; NaN makes an empty array. *)
Definition newLength (length : Z) (sampleRateRatio : float) : option Z :=
  let x := (of_int length / sampleRateRatio)%float in
  match Prim2SF x with
  | S754_nan => Some 0
  | S754_infinity _ => None
  | _ => let n := Math_round x in
         if (n <? 0) || (2 ^ 53 <=? n) then None else Some n
  end.

(** The inner [for] loop; the indices are whole numbers. *)
Fixpoint for_loop (steps : nat) (buffer : list float) (nextOffsetBuffer i : Z)
         (accum : float) (count : Z) : float * Z :=
  match steps with
  | O => (accum, count)
  | S steps' =>
      if (i <? nextOffsetBuffer) && (i <? Z.of_nat (length buffer))
      then for_loop steps' buffer nextOffsetBuffer (i + 1)
                    (accum + nth (Z.to_nat i) buffer nan)%float (count + 1)
      else (accum, count)
  end.

Definition window (buffer : list float) (offsetBuffer nextOffsetBuffer : Z) : float * Z :=
  for_loop (Z.to_nat (nextOffsetBuffer - offsetBuffer)) buffer
           nextOffsetBuffer offsetBuffer 0%float 0.

(** The outer [while (offsetResult < result.length)] loop.  It runs only
    for a ratio that is finite and positive, so the products rounded by
    [Math.round] are finite; the store into [result] rounds to binary32. *)
Fixpoint while_loop (remaining : nat) (buffer : list float) (sampleRateRatio : float)
         (offsetResult offsetBuffer : Z) : list float :=
  match remaining with
  | O => []
  | S remaining' =>
      let nextOffsetBuffer :=
        Math_round (of_int (offsetResult + 1) * sampleRateRatio)%float in
      let '(accum, count) := window buffer offsetBuffer nextOffsetBuffer in
      fround (accum / of_int count)
        :: while_loop remaining' buffer sampleRateRatio (offsetResult + 1) nextOffsetBuffer
  end.

Definition downsampleBuffer (buffer : list float) (sampleRate outSampleRate : float)
  : Resampler.outcome (list float) :=
  if (outSampleRate =? sampleRate)%float then Resampler.Returned buffer
  else if (sampleRate <? outSampleRate)%float then
    Resampler.Thrown "downsampling rate show be smaller than original sample rate"
  else
    let sampleRateRatio := (sampleRate / outSampleRate)%float in
    match newLength (Z.of_nat (length buffer)) sampleRateRatio with
    | None => Resampler.Thrown "RangeError: Invalid typed array length"
    | Some n =>
        Resampler.Returned (while_loop (Z.to_nat n) buffer sampleRateRatio 0 0)
    end.

End Resampler64.

(* ================================================================== *)
(** * Part II: properties *)
(* ================================================================== *)

(** ** Typed-array stores *)

Lemma store_length {A : Type} (arr : list A) i v :
  length (store arr i v) = length arr.
Proof.
  revert i; induction arr as [|a arr IH]; intros [|i]; simpl; auto.
Qed.

Lemma skipn_store {A : Type} (arr : list A) i v :
  (i < length arr)%nat ->
  skipn i (store arr i v) = v :: skipn (S i) arr.
Proof.
  revert i; induction arr as [|a arr IH]; intros [|i] Hi; simpl in *; try lia.
  - reflexivity.
  - apply IH; lia.
Qed.

Lemma firstn_snoc_nth {A : Type} (l : list A) i d :
  (i < length l)%nat ->
  firstn (S i) l = firstn i l ++ [nth i l d].
Proof.
  revert i; induction l as [|a l IH]; intros [|i] Hi; simpl in *; try lia.
  - reflexivity.
  - f_equal. apply IH; lia.
Qed.

(** ** Comparison of exact numbers *)

Lemma Qltb_lt (a b : Q) : Qltb a b = true <-> (a < b)%Q.
Proof.
  unfold Qltb. rewrite negb_true_iff, <- not_true_iff_false, Qle_bool_iff.
  split; [apply Qnot_le_lt | apply Qlt_not_le].
Qed.

Lemma Qltb_ge (a b : Q) : Qltb a b = false <-> (b <= a)%Q.
Proof.
  unfold Qltb. rewrite negb_false_iff. apply Qle_bool_iff.
Qed.

(** ** PCM codec *)

Section CodecFacts.
Import JS Codec.

Lemma convert_loop_spec l buffer buf :
  (l <= length buffer)%nat -> length buf = length buffer ->
  convert_loop l buffer buf
  = map sample_to_int16 (firstn l buffer) ++ skipn l buf.
Proof.
  revert buf; induction l as [|l IH]; intros buf Hl Hlen.
  - reflexivity.
  - simpl convert_loop.
    rewrite IH by (rewrite ?store_length; lia).
    rewrite skipn_store by lia.
    rewrite (firstn_snoc_nth buffer l nan) by lia.
    rewrite map_app, <- app_assoc. reflexivity.
Qed.

(** The backward loop is the element-wise conversion. *)
Lemma convertFloat32ToInt16_map buffer :
  convertFloat32ToInt16 buffer = map sample_to_int16 buffer.
Proof.
  unfold convertFloat32ToInt16.
  rewrite convert_loop_spec by (rewrite ?repeat_length; lia).
  rewrite firstn_all, skipn_all2 by (rewrite repeat_length; lia).
  apply app_nil_r.
Qed.

Lemma roundtrip_check_sound n x0 :
  roundtrip_check n x0 = true ->
  forall x, x0 <= x < x0 + Z.of_nat n ->
  roundtrip_ok x (sample_to_int16 (int16ToFloat x)) = true.
Proof.
  revert x0; induction n as [|n IH]; intros x0 Hc x Hx; [lia|].
  simpl in Hc. apply andb_prop in Hc as [H0 Hrest].
  destruct (Z.eq_dec x x0) as [->|Hne]; [exact H0|].
  apply (IH (x0 + 1) Hrest). lia.
Qed.

(** Every one of the 65536 samples, evaluated. *)
Lemma roundtrip_check_all : roundtrip_check (Z.to_nat 65536) (-32768) = true.
Proof. vm_compute. reflexivity. Qed.

Lemma roundtrip_sample x :
  int16_range x ->
  let y := sample_to_int16 (int16ToFloat x) in
  (x < 0 -> y = x) /\ (0 <= x -> x - 1 <= y <= x).
Proof.
  intros Hx y.
  assert (H : roundtrip_ok x y = true).
  { apply (roundtrip_check_sound _ _ roundtrip_check_all).
    unfold int16_range in Hx. rewrite Z2Nat.id; lia. }
  unfold roundtrip_ok in H.
  destruct (x <? 0) eqn:Hs.
  - apply Z.ltb_lt in Hs. apply Z.eqb_eq in H. split; [auto | lia].
  - apply Z.ltb_ge in Hs. apply andb_prop in H as [H1 H2].
    apply Z.leb_le in H1, H2. split; [lia | auto].
Qed.

(** C1 (as amended).  Decoding 16-bit samples with the asymmetric mapping
    of [base64ToFloat32] and encoding them back with
    [convertFloat32ToInt16] returns every negative sample exactly, and
    every sample from zero on either exactly or one unit lower (never
    higher): the decoder rounds the quotient to binary32 and the encoder
    truncates. *)
Theorem roundtrip_within_one_unit (xs : list Z) :
  Forall int16_range xs ->
  Forall2 (fun x y => (x < 0 -> y = x) /\ (0 <= x -> x - 1 <= y <= x))
          xs (convertFloat32ToInt16 (map int16ToFloat xs)).
Proof.
  intros Hxs. rewrite convertFloat32ToInt16_map.
  induction Hxs as [|x xs Hx _ IH]; simpl; constructor; auto.
  apply roundtrip_sample; assumption.
Qed.

Lemma roundtrip_within_one_unit_witness :
  Forall int16_range [-32768; -1; 0; 1; 2; 32767] /\
  Forall2 (fun x y => (x < 0 -> y = x) /\ (0 <= x -> x - 1 <= y <= x))
          [-32768; -1; 0; 1; 2; 32767]
          (convertFloat32ToInt16 (map int16ToFloat [-32768; -1; 0; 1; 2; 32767])).
Proof.
  assert (H : Forall int16_range [-32768; -1; 0; 1; 2; 32767])
    by (repeat constructor; unfold int16_range; lia).
  split; [exact H | exact (roundtrip_within_one_unit _ H)].
Defined.

(** C1 (as stated) fails: the sample 1 comes back as 0. *)
Lemma roundtrip_not_exact :
  int16_range 1 /\
  convertFloat32ToInt16 (map int16ToFloat [1]) = [0] /\
  convertFloat32ToInt16 (map int16ToFloat [1]) <> [1].
Proof.
  split; [unfold int16_range; lia|].
  assert (E : convertFloat32ToInt16 (map int16ToFloat [1]) = [0])
    by (vm_compute; reflexivity).
  split; [exact E | rewrite E; discriminate].
Qed.

End CodecFacts.

(** ** Rounding of exact numbers *)

(** Linear arithmetic over [Q] where integers are injected: the injected
    integers are abstracted first. *)
Ltac abstract_inject_Z :=
  repeat match goal with
         | |- context [inject_Z ?z] =>
             let q := fresh "q" in set (q := inject_Z z) in *; clearbody q
         | H : context [inject_Z ?z] |- _ =>
             let q := fresh "q" in set (q := inject_Z z) in *; clearbody q
         end.
Ltac qlra := abstract_inject_Z; lra.

Lemma Qfloor_unique (x : Q) (z : Z) :
  (inject_Z z <= x)%Q -> (x < inject_Z (z + 1))%Q -> Qfloor x = z.
Proof.
  intros Hlo Hhi.
  assert (H1 : z <= Qfloor x).
  { rewrite <- (Qfloor_Z z). apply Qfloor_resp_le; assumption. }
  assert (H2 : Qfloor x < z + 1).
  { rewrite Zlt_Qlt. eapply Qle_lt_trans; [apply Qfloor_le | exact Hhi]. }
  lia.
Qed.

Lemma Qfloor_plus_1 (x : Q) : Qfloor (x + 1) = Qfloor x + 1.
Proof.
  apply Qfloor_unique.
  - rewrite inject_Z_plus. pose proof (Qfloor_le x).
    change (inject_Z 1) with 1%Q. qlra.
  - pose proof (Qlt_floor x) as H. rewrite !inject_Z_plus in *.
    change (inject_Z 1) with 1%Q in *. qlra.
Qed.

Section RoundFacts.
Import Resampler.
Local Open Scope Q_scope.


Lemma Math_round_comp (x y : Q) : x == y -> Math_round x = Math_round y.
Proof. intros H. apply Qfloor_comp. rewrite H. reflexivity. Qed.





End RoundFacts.

(** ** [downsampleBuffer] *)

Section DownsampleFacts.
Import Resampler.
Local Open Scope Z_scope.


Lemma skipn_cons_nth {A : Type} (l : list A) (n : nat) (d : A) :
  (n < length l)%nat -> skipn n l = nth n l d :: skipn (S n) l.
Proof.
  revert n; induction l as [|a l IH]; intros [|n] Hn; simpl in *; try lia.
  - reflexivity.
  - apply IH; lia.
Qed.










End DownsampleFacts.

Section DownsampleClaims.
Import Resampler.
Local Open Scope Q_scope.

Variables sampleRate outSampleRate : Q.
Hypothesis out_pos : 0 < outSampleRate.
Hypothesis downsampling : outSampleRate < sampleRate.

Let ratio := sampleRate / outSampleRate.








Lemma newLength_formula (len : Z) :
  Math_round (inject_Z len / ratio)
  = Math_round (inject_Z len * outSampleRate / sampleRate).
Proof.
  apply Math_round_comp. unfold ratio.
  pose proof out_pos. pose proof downsampling.
  field. split; intro E; lra.
Qed.


End DownsampleClaims.

Section DownsampleTheorems.
Import Resampler.
Local Open Scope Q_scope.

(** C8.  Asked to upsample ([outSampleRate > sampleRate]),
    [downsampleBuffer] throws, whatever the buffer: it never returns an
    array in that direction. *)
Theorem downsampleBuffer_rejects_upsampling
        (buffer : list num) (sampleRate outSampleRate : Q) :
  sampleRate < outSampleRate ->
  downsampleBuffer buffer sampleRate outSampleRate
  = Thrown "downsampling rate show be smaller than original sample rate"
  /\ forall result,
      downsampleBuffer buffer sampleRate outSampleRate <> Returned result.
Proof.
  intros Hup.
  assert (E : downsampleBuffer buffer sampleRate outSampleRate
              = Thrown "downsampling rate show be smaller than original sample rate").
  { unfold downsampleBuffer.
    destruct (Qeq_bool outSampleRate sampleRate) eqn:E1.
    { apply Qeq_bool_eq in E1. lra. }
    apply Qltb_lt in Hup. rewrite Hup. reflexivity. }
  split; [exact E | intros result; rewrite E; discriminate].
Qed.

Lemma downsampleBuffer_rejects_upsampling_witness :
  16000 < 48000 /\
  downsampleBuffer [Fin 1; Fin 2; Fin 3] 16000 48000
  = Thrown "downsampling rate show be smaller than original sample rate".
Proof.
  assert (H : 16000 < 48000) by reflexivity.
  split; [exact H|].
  exact (proj1 (downsampleBuffer_rejects_upsampling [Fin 1; Fin 2; Fin 3] 16000 48000 H)).
Defined.




End DownsampleTheorems.

(** ** Capture processor: chunking *)

Section CaptureFacts.
Import Capture.
Local Open Scope nat_scope.

Ltac fields :=
  cbn [targetSampleRate vadThreshold chunkSize buffer bufferIndex
       volumeSkipCounter residue port
       postMessage set_bufferIndex set_buffer set_volumeSkipCounter set_residue] in *.

Lemma emitted_postMessage m st :
  emitted (postMessage m st)
  = emitted st ++ match m with audio_data d => [d] | _ => [] end.
Proof.
  unfold emitted, postMessage; cbn [port].
  rewrite flat_map_app. simpl. rewrite app_nil_r. reflexivity.
Qed.

(** [accumulated st0 n st]: [st] is [st0] after [n] more samples went
    into the accumulation buffer.  Every chunk posted in between is
    full, and the samples are accounted for: [chunkSize] for each chunk
    posted, and the rest still in the buffer. *)
Definition accumulated (st0 : AudioProcessor) (n : nat) (st : AudioProcessor) : Prop :=
  well_formed st /\
  chunkSize st = chunkSize st0 /\
  targetSampleRate st = targetSampleRate st0 /\
  exists new,
    emitted st = emitted st0 ++ new /\
    Forall (fun chunk => length chunk = chunkSize st0) new /\
    bufferIndex st0 + n = length new * chunkSize st0 + bufferIndex st.

Lemma accumulated_refl st : well_formed st -> accumulated st 0 st.
Proof.
  intros H. split; [exact H|]. split; [reflexivity|]. split; [reflexivity|].
  exists []. rewrite app_nil_r. split; [reflexivity|]. split; [constructor|].
  simpl. lia.
Qed.

Lemma flush_chunk_length st :
  match last (port (flush st)) vad_signal with
  | audio_data d => length d = chunkSize st
  | _ => False
  end.
Proof.
  unfold flush, set_bufferIndex, postMessage; cbn [port].
  rewrite last_last. rewrite length_map, length_seq. reflexivity.
Qed.

Lemma flush_resets st : bufferIndex (flush st) = 0.
Proof. reflexivity. Qed.

Lemma accumulated_push st0 n st v :
  accumulated st0 n st -> accumulated st0 (S n) (push v st).
Proof.
  intros ((Hpos & Hidx & Hlen) & Hcs & Hts & new & Hem & Hall & Hcount).
  unfold push. cbn [chunkSize bufferIndex set_bufferIndex set_buffer].
  destruct (chunkSize st <=? S (bufferIndex st)) eqn:E.
  - apply Nat.leb_le in E.
    split; [|split; [exact Hcs|split; [exact Hts|]]].
    + unfold well_formed, flush.
      cbn [chunkSize bufferIndex buffer set_bufferIndex set_buffer postMessage].
      rewrite store_length. lia.
    + exists (new ++ [map (fun i => Codec.sample_to_int16
                                        (nth i (store (buffer st) (bufferIndex st) v) nan))
                          (seq 0 (chunkSize st))]).
      split; [|split].
      * unfold flush, emitted in *.
        cbn [port postMessage set_bufferIndex set_buffer buffer chunkSize bufferIndex].
        rewrite flat_map_app, Hem, <- app_assoc. reflexivity.
      * apply Forall_app. split; [exact Hall|].
        constructor; [|constructor]. rewrite length_map, length_seq. exact Hcs.
      * rewrite length_app. unfold flush. fields. cbn [length]. nia.
  - apply Nat.leb_gt in E.
    split; [|split; [exact Hcs|split; [exact Hts|]]].
    + unfold well_formed.
      cbn [chunkSize bufferIndex buffer set_bufferIndex set_buffer].
      rewrite store_length. lia.
    + exists new. split; [exact Hem|]. split; [exact Hall|].
      fields. lia.
Qed.


Lemma accumulated_vad_stage st0 n st channelData :
  accumulated st0 n st -> accumulated st0 n (vad_stage channelData st).
Proof.
  intros (Hwf & Hcs & Hts & new & Hem & Hall & Hcount).
  unfold vad_stage.
  destruct (vadThreshold st <? frame_rms channelData)%float;
    cbn [volumeSkipCounter set_volumeSkipCounter postMessage];
    destruct (3 <=? _)%Z;
    (split; [exact Hwf|split; [exact Hcs|split; [exact Hts|]]];
     exists new; split; [|split; [exact Hall|exact Hcount]];
     unfold emitted in *; cbn [port set_volumeSkipCounter postMessage];
     rewrite ?flat_map_app; cbn [flat_map]; rewrite ?app_nil_r; exact Hem).
Qed.

Lemma residue_push v st : residue (push v st) = residue st.
Proof.
  unfold push. cbn [chunkSize bufferIndex set_bufferIndex set_buffer].
  destruct (_ <=? _); reflexivity.
Qed.

Lemma accumulated_push_all st0 n st samples :
  accumulated st0 n st ->
  accumulated st0 (n + length samples) (push_all samples st).
Proof.
  revert n st; induction samples as [|v samples IH]; intros n st H.
  - simpl. rewrite Nat.add_0_r. exact H.
  - cbn [push_all fold_left length]. rewrite Nat.add_succ_r.
    apply (IH (S n)). apply accumulated_push, H.
Qed.


Lemma vad_stage_keeps channelData st :
  residue (vad_stage channelData st) = residue st /\
  targetSampleRate (vad_stage channelData st) = targetSampleRate st.
Proof.
  unfold vad_stage.
  destruct (vadThreshold st <? frame_rms channelData)%float;
    cbn [volumeSkipCounter set_volumeSkipCounter postMessage];
    destruct (3 <=? _)%Z; split; reflexivity.
Qed.



Lemma constructor_well_formed : well_formed constructor.
Proof. unfold well_formed, constructor; cbn. repeat split; lia. Qed.


(** A processor with chunks of four samples, fed at twice the target
    rate: nine samples come out of two callbacks, two chunks are posted
    and one sample stays behind. *)
Definition small_processor : AudioProcessor :=
  {| targetSampleRate := 16000;
     vadThreshold := 0.005%float;
     chunkSize := 4;
     buffer := repeat 0%float 4;
     bufferIndex := 0;
     volumeSkipCounter := 0;
     residue := 0;
     port := [] |}.

Definition small_run : list (list (list float)) :=
  [ [repeat 0.25%float 12]; [repeat 0.5%float 6] ].


(** *** The loops end *)

Lemma passes_enough (len : Z) (ratio r : Q) :
  (0 < ratio)%Q ->
  (inject_Z len - r <= inject_Z (Z.of_nat (Resampler.passes len ratio r)) * ratio)%Q.
Proof.
  intros Hr. unfold Resampler.passes.
  set (x := ((inject_Z len - r) / ratio)%Q).
  assert (Hx : (x * ratio == inject_Z len - r)%Q).
  { unfold x. field. intro E. rewrite E in Hr. apply (Qlt_irrefl 0), Hr. }
  assert (Hc : (x <= inject_Z (Z.of_nat (Z.to_nat (Qceiling x))))%Q).
  { eapply Qle_trans; [apply Qle_ceiling|]. rewrite <- Zle_Qle. lia. }
  rewrite <- Hx. apply Qmult_le_compat_r; [exact Hc | apply Qlt_le_weak, Hr].
Qed.

Lemma nearest_loop_exits_gen channelData (ratio : Q) :
  (0 < ratio)%Q ->
  forall fuel st,
    (inject_Z (Z.of_nat (length channelData)) - residue st
     <= inject_Z (Z.of_nat fuel) * ratio)%Q ->
    (inject_Z (Z.of_nat (length channelData))
     <= residue (nearest_loop fuel channelData ratio st))%Q.
Proof.
  intros Hr. induction fuel as [|fuel IH]; intros st Hst.
  - simpl in *. change (inject_Z 0) with 0%Q in Hst.
    set (L := inject_Z _) in *. clearbody L. lra.
  - cbn [nearest_loop].
    destruct (Qltb (residue st) _) eqn:E; [|apply Qltb_ge in E; exact E].
    apply IH. cbn [residue set_residue].
    assert (Hres : residue (if (Qfloor (residue st) <? Z.of_nat (length channelData))%Z
                            then push (sample_at channelData (Qfloor (residue st))) st
                            else st) = residue st).
    { destruct (_ <? _)%Z; [apply residue_push | reflexivity]. }
    rewrite Hres.
    rewrite Nat2Z.inj_succ in Hst. unfold Z.succ in Hst.
    rewrite inject_Z_plus in Hst. change (inject_Z 1) with 1%Q in Hst.
    set (L := inject_Z (Z.of_nat (length channelData))) in *.
    set (F := inject_Z (Z.of_nat fuel)) in *. clearbody L F.
    assert (E2 : ((F + 1) * ratio == F * ratio + ratio)%Q) by ring.
    rewrite E2 in Hst. generalize dependent (F * ratio)%Q. intros p Hp. lra.
Qed.

(** With a positive ratio, the passes given to the nearest-neighbour
    loop suffice: it stops because [residue < channelData.length] has
    become false. *)
Lemma nearest_loop_exits channelData (ratio : Q) st :
  (0 < ratio)%Q ->
  (inject_Z (Z.of_nat (length channelData))
   <= residue (nearest_loop
                 (Resampler.passes (Z.of_nat (length channelData)) ratio (residue st))
                 channelData ratio st))%Q.
Proof.
  intros Hr. apply nearest_loop_exits_gen; [exact Hr|].
  apply passes_enough, Hr.
Qed.

(** *** The fast path *)

Lemma store_split {A : Type} (arr : list A) i v :
  i < length arr ->
  store arr i v = firstn i arr ++ v :: skipn (S i) arr.
Proof.
  revert i; induction arr as [|a arr IH]; intros [|i] Hi; simpl in *; try lia.
  - reflexivity.
  - f_equal. apply IH. lia.
Qed.

Lemma skipn_after_prefix {A : Type} (p q : list A) k :
  skipn (length p + k) (p ++ q) = skipn k q.
Proof. induction p as [|a p IH]; [reflexivity | exact IH]. Qed.

Lemma push_no_flush v st :
  S (bufferIndex st) < chunkSize st ->
  push v st = set_bufferIndex (S (bufferIndex st))
                (set_buffer (store (buffer st) (bufferIndex st) v) st).
Proof.
  intros H. unfold push. fields.
  destruct (chunkSize st <=? S (bufferIndex st)) eqn:E; [|reflexivity].
  apply Nat.leb_le in E. lia.
Qed.

Lemma push_all_no_flush samples :
  forall st,
    length (buffer st) = chunkSize st ->
    bufferIndex st + length samples < chunkSize st ->
    let st' := push_all samples st in
    buffer st' = firstn (bufferIndex st) (buffer st) ++ samples
                   ++ skipn (bufferIndex st + length samples) (buffer st) /\
    bufferIndex st' = bufferIndex st + length samples /\
    port st' = port st /\ residue st' = residue st.
Proof.
  induction samples as [|v samples IH]; intros st Hlen Hroom.
  - simpl. rewrite Nat.add_0_r, firstn_skipn. auto.
  - cbn [push_all fold_left length] in *.
    rewrite push_no_flush by lia.
    match goal with |- context [fold_left _ samples ?s] => set (st1 := s) end.
    assert (Hlen1 : length (buffer st1) = chunkSize st1).
    { unfold st1. fields. rewrite store_length. exact Hlen. }
    assert (Hroom1 : bufferIndex st1 + length samples < chunkSize st1).
    { unfold st1. fields. lia. }
    destruct (IH st1 Hlen1 Hroom1) as (Hb & Hi & Hp & Hr).
    unfold push_all in *. rewrite Hb, Hi, Hp, Hr. unfold st1. fields.
    split; [|split; [lia | split; reflexivity]].
    rewrite (store_split (buffer st) (bufferIndex st) v) by lia.
    assert (Hpre : length (firstn (bufferIndex st) (buffer st)) = bufferIndex st)
      by (rewrite length_firstn; lia).
    set (p := firstn (bufferIndex st) (buffer st)) in *.
    rewrite <- Hpre at 1. rewrite <- Nat.add_1_r, firstn_app_2. cbn [firstn].
    replace (S (bufferIndex st) + length samples)
      with (length p + S (length samples)) by lia.
    rewrite skipn_after_prefix, skipn_cons.
    rewrite skipn_skipn, <- app_assoc. cbn [app].
    do 4 f_equal. lia.
Qed.

Lemma vad_stage_keeps_buffer channelData st :
  buffer (vad_stage channelData st) = buffer st /\
  bufferIndex (vad_stage channelData st) = bufferIndex st /\
  chunkSize (vad_stage channelData st) = chunkSize st.
Proof.
  unfold vad_stage.
  destruct (vadThreshold st <? frame_rms channelData)%float;
    cbn [volumeSkipCounter set_volumeSkipCounter postMessage];
    destruct (3 <=? _)%Z; repeat split; reflexivity.
Qed.

End CaptureFacts.

(** ** Identity at equal rates *)

Section IdentityFacts.
Import Capture.

Lemma residue_push_all samples st :
  residue (push_all samples st) = residue st.
Proof.
  revert st; induction samples as [|v samples IH]; intros st; [reflexivity|].
  cbn [push_all fold_left]. fold (push_all samples (push v st)).
  rewrite IH. apply residue_push.
Qed.

Lemma ratio_one (sampleRate : Z) :
  sampleRate <> 0%Z ->
  Qeq_bool (inject_Z sampleRate / inject_Z sampleRate) 1 = true.
Proof.
  intros H. apply Qeq_bool_iff. field.
  unfold Qeq; simpl. lia.
Qed.

(** C9.  At equal rates the resamplers return their input, sample for
    sample: [downsampleBuffer] returns the buffer it was given, and the
    processor's fast path ([ratio === 1]) writes the samples of the
    frame, in order and unchanged, into the accumulation buffer, leaving
    the residue alone. *)
Theorem resampler_identity
        (input : list Resampler.num) (rate rate' : Q)
        (st : AudioProcessor) (sampleRate : Z)
        (channelData : list float) (others : list (list float)) :
  (rate' == rate)%Q ->
  sampleRate = targetSampleRate st ->
  sampleRate <> 0%Z ->
  let st' := process sampleRate (channelData :: others) st in
  Resampler.downsampleBuffer input rate rate' = Resampler.Returned input /\
  st' = push_all channelData (vad_stage channelData st) /\
  resampled sampleRate (channelData :: others) st = channelData /\
  residue st' = residue st /\
  (well_formed st ->
   (bufferIndex st + length channelData < chunkSize st)%nat ->
   buffer st' = firstn (bufferIndex st) (buffer st) ++ channelData
                  ++ skipn (bufferIndex st + length channelData) (buffer st) /\
   bufferIndex st' = (bufferIndex st + length channelData)%nat /\
   emitted st' = emitted st).
Proof.
  intros Hrate Hsr Hnz st'.
  assert (Hst' : st' = push_all channelData (vad_stage channelData st)).
  { unfold st', process.
    destruct (vad_stage_keeps channelData st) as [_ Ht]. rewrite Ht, <- Hsr.
    rewrite (ratio_one _ Hnz). reflexivity. }
  split.
  { unfold Resampler.downsampleBuffer.
    apply Qeq_bool_iff in Hrate. rewrite Hrate. reflexivity. }
  split; [exact Hst'|]. split.
  { unfold resampled. rewrite <- Hsr, (ratio_one _ Hnz). reflexivity. }
  destruct (vad_stage_keeps channelData st) as [Hr _].
  destruct (vad_stage_keeps_buffer channelData st) as (Hb & Hi & Hc).
  split; [rewrite Hst', residue_push_all; exact Hr|].
  intros (Hpos & Hidx & Hlen) Hroom.
  destruct (push_all_no_flush channelData (vad_stage channelData st))
    as (Hbuf & Hind & Hport & _).
  { rewrite Hb, Hc. exact Hlen. }
  { rewrite Hi, Hc. exact Hroom. }
  rewrite Hst', Hbuf, Hind, Hb, Hi.
  split; [reflexivity|]. split; [reflexivity|].
  unfold emitted. rewrite Hport.
  pose proof (accumulated_vad_stage st 0 st channelData
                (accumulated_refl st (conj Hpos (conj Hidx Hlen))))
    as (_ & _ & _ & new & Hem & _ & Hcount).
  rewrite Hi in Hcount. fold (emitted (vad_stage channelData st)).
  destruct new as [|c new]; [rewrite app_nil_r in Hem; exact Hem|].
  cbn [length] in Hcount. nia.
Qed.

Lemma resampler_identity_witness :
  Resampler.downsampleBuffer [Resampler.Fin 1; Resampler.Fin (1 # 2)] 16000 16000
  = Resampler.Returned [Resampler.Fin 1; Resampler.Fin (1 # 2)] /\
  resampled 16000 [[0.5%float; (-0.25)%float; 0.125%float]] constructor
  = [0.5%float; (-0.25)%float; 0.125%float].
Proof.
  destruct (resampler_identity [Resampler.Fin 1; Resampler.Fin (1 # 2)] 16000 16000
              constructor 16000 [0.5%float; (-0.25)%float; 0.125%float] []
              ltac:(reflexivity) eq_refl ltac:(discriminate))
    as (H1 & _ & H3 & _).
  split; [exact H1 | exact H3].
Defined.

End IdentityFacts.

(** ** Playback scheduler *)

Section PlaybackFacts.
Import Playback.
Local Open Scope Q_scope.

Lemma last_map_snoc {A : Type} (l : list A) (x : A) :
  last (map Some (l ++ [x])) None = Some x.
Proof.
  induction l as [|a l IH]; [reflexivity|].
  simpl. rewrite IH.
  destruct (map Some (l ++ [x])) eqn:E; [|reflexivity].
  destruct l; discriminate.
Qed.

Lemma playAudio_started st ctx a data :
  audioContextRef st = Some ctx ->
  let start := if Qltb (nextStartTimeRef st) (currentTime ctx)
               then currentTime ctx else nextStartTimeRef st in
  let st' := playAudio (a :: data) st in
  last_start st' = Some start /\
  nextStartTimeRef st' = start + buffer_duration (a :: data) RECEIVE_SAMPLE_RATE /\
  activeSourceNodesRef st' =
    activeSourceNodesRef st ++
      [{| node_id := created st;
          node_duration := buffer_duration (a :: data) RECEIVE_SAMPLE_RATE |}] /\
  audioContextRef st' = Some ctx.
Proof.
  intros Hctx. unfold playAudio, last_start. rewrite Hctx. cbn -[buffer_duration Qplus].
  rewrite last_map_snoc. auto.
Qed.

Lemma schedule_rule_no_gap epsilon now nextStartTime d :
  now <= nextStartTime ->
  schedule_rule epsilon now nextStartTime d = (nextStartTime, nextStartTime + d).
Proof.
  intros H. unfold schedule_rule.
  apply Qltb_ge in H. rewrite H. reflexivity.
Qed.

(** C4 (as amended).  Enqueueing a decoded unit of duration [d] at clock
    time [now]: the unit starts at [nextStartTime], first reset to
    [now + epsilon] when it lies in the past, and [nextStartTime] advances
    by [d].  The lookahead [epsilon] is [0.05] in [scheduleAudioChunk];
    [playAudio] has none, it resets to [now] ([epsilon = 0]).  A unit enqueued while the previous one has not
    ended ([now2 <= nextStartTime]) starts exactly where the previous one
    ends: no gap, no overlap. *)
Theorem enqueue_follows_schedule_rule
        (st : VoiceClient) (ctx : AudioContext) (vc : VoiceChat)
        (data : list float) :
  audioContextRef st = Some ctx ->
  data <> [] ->
  let now := currentTime ctx in
  let d := buffer_duration data 22000 in
  let st' := playAudio data st in
  let vc' := scheduleAudioChunk now data vc in
  (exists start,
      last_start st' = Some start /\
      nextStartTimeRef st' = start + d /\
      start == fst (schedule_rule 0 now (nextStartTimeRef st) d)) /\
  (vc_started vc' =
     vc_started vc ++ [(fst (schedule_rule (5 # 100) now (vc_nextStartTimeRef vc) d), d)] /\
   vc_nextStartTimeRef vc' = snd (schedule_rule (5 # 100) now (vc_nextStartTimeRef vc) d)) /\
  (forall (data2 : list float) (now2 : Q),
      data2 <> [] ->
      now2 <= nextStartTimeRef st' ->
      last_start (playAudio data2 (at_time now2 st')) = Some (nextStartTimeRef st')) /\
  (forall (data2 : list float) (now2 : Q),
      data2 <> [] ->
      now2 <= vc_nextStartTimeRef vc' ->
      vc_started (scheduleAudioChunk now2 data2 vc') =
        vc_started vc' ++ [(vc_nextStartTimeRef vc', buffer_duration data2 22000)]).
Proof.
  intros Hctx Hdata now d st' vc'.
  destruct data as [|a data]; [congruence|].
  destruct (playAudio_started st ctx a data Hctx) as (Hs & Hn & Ha & Hc).
  split; [|split; [split|split]].
  - eexists. split; [exact Hs|]. split; [exact Hn|].
    unfold schedule_rule; cbn [fst]. fold now.
    destruct (Qltb (nextStartTimeRef st) now); [|reflexivity].
    symmetry; apply Qplus_0_r.
  - reflexivity.
  - reflexivity.
  - intros data2 now2 Hd2 Hle.
    destruct data2 as [|b data2]; [congruence|].
    assert (Hctx2 : audioContextRef (at_time now2 st') = Some {| currentTime := now2 |}).
    { unfold at_time; cbn [audioContextRef]. fold st'. unfold st'. rewrite Hc. reflexivity. }
    destruct (playAudio_started _ _ b data2 Hctx2) as (Hs2 & _).
    rewrite Hs2. cbn [currentTime at_time nextStartTimeRef].
    apply Qltb_ge in Hle. fold st'. rewrite Hle. reflexivity.
  - intros data2 now2 Hd2 Hle.
    destruct data2 as [|b data2]; [congruence|].
    unfold scheduleAudioChunk at 1. apply Qltb_ge in Hle. rewrite Hle. reflexivity.
Qed.

Definition client0 : VoiceClient :=
  {| audioContextRef := Some {| currentTime := 3 |};
     nextStartTimeRef := 1;
     activeSourceNodesRef := [];
     isAIRespondingRef := false;
     speakingState := listening;
     created := 0;
     started := [];
     stopped := [] |}.

Definition chat0 : VoiceChat :=
  {| vc_nextStartTimeRef := 0; vc_started := [] |}.

Lemma enqueue_follows_schedule_rule_witness :
  last_start (playAudio [0.5%float; 0.25%float] client0) = Some 3 /\
  vc_started (scheduleAudioChunk 3 [0.5%float; 0.25%float] chat0)
    = [(3 + (5 # 100), buffer_duration [0.5%float; 0.25%float] 22000)].
Proof.
  pose proof (enqueue_follows_schedule_rule client0 {| currentTime := 3 |} chat0
                [0.5%float; 0.25%float] eq_refl
                ltac:(discriminate)) as (_ & (H2 & _) & _).
  split; [reflexivity | exact H2].
Defined.

(** Against C4 as the specification words it: [playAudio] has no
    lookahead.  With [nextStartTime = 1] behind the clock at [3], the unit
    starts at [3], the clock itself, and not at [3 + 0.05], where the
    scheduling rule with the reference lookahead of 50 ms puts it;
    [scheduleAudioChunk], in the same situation, starts it at [3 + 0.05]. *)
Lemma playAudio_has_no_lookahead :
  nextStartTimeRef client0 < 3 /\
  audioContextRef client0 = Some {| currentTime := 3 |} /\
  last_start (playAudio [0.5%float; 0.25%float] client0) = Some 3 /\
  (fst (schedule_rule (5 # 100) 3 (nextStartTimeRef client0)
          (buffer_duration [0.5%float; 0.25%float] 22000))
   == 3 + (5 # 100)) /\
  ~ (3 == fst (schedule_rule (5 # 100) 3 (nextStartTimeRef client0)
                 (buffer_duration [0.5%float; 0.25%float] 22000))) /\
  vc_started (scheduleAudioChunk 3 [0.5%float; 0.25%float]
                {| vc_nextStartTimeRef := 1; vc_started := [] |})
  = [(3 + (5 # 100), buffer_duration [0.5%float; 0.25%float] 22000)].
Proof.
  split; [reflexivity|]. split; [reflexivity|]. split; [reflexivity|].
  split; [reflexivity|]. split; [discriminate | reflexivity].
Qed.

(** C5.  [stopAudioPlayback] stops every tracked unit, empties the active
    set and resets [nextStartTime] to the clock of the context, so that
    the next unit enqueued (at a time [now'] not before the cancellation)
    starts at [now'], not at the stale time. *)
Theorem stopAudioPlayback_cancels_all (st : VoiceClient) (ctx : AudioContext) :
  audioContextRef st = Some ctx ->
  let st' := stopAudioPlayback st in
  (forall source, In source (activeSourceNodesRef st) -> In source (stopped st')) /\
  activeSourceNodesRef st' = [] /\
  nextStartTimeRef st' = currentTime ctx /\
  isAIRespondingRef st' = false /\
  (forall (data : list float) (now' : Q),
      data <> [] ->
      currentTime ctx <= now' ->
      exists start,
        last_start (playAudio data (at_time now' st')) = Some start /\
        start == now').
Proof.
  intros Hctx st'. unfold st', stopAudioPlayback; cbn.
  rewrite Hctx. split; [|split; [|split; [|split]]]; try reflexivity.
  - intros source Hin. apply in_or_app. right. exact Hin.
  - intros data now' Hd Hle.
    destruct data as [|a data]; [congruence|].
    match goal with |- context [playAudio _ ?s] => set (s1 := s) end.
    assert (Hctx1 : audioContextRef s1 = Some {| currentTime := now' |}) by reflexivity.
    destruct (playAudio_started s1 _ a data Hctx1) as (Hs & _).
    eexists. split; [exact Hs|].
    cbn [currentTime]. subst s1. cbn [nextStartTimeRef at_time].
    destruct (Qltb (currentTime ctx) now') eqn:E; [reflexivity|].
    apply Qltb_ge in E. apply Qle_antisym; assumption.
Qed.

Definition client_speaking : VoiceClient :=
  {| audioContextRef := Some {| currentTime := 2 |};
     nextStartTimeRef := 7;
     activeSourceNodesRef :=
       [ {| node_id := 0; node_duration := 2 |}; {| node_id := 1; node_duration := 3 |} ];
     isAIRespondingRef := true;
     speakingState := speaking;
     created := 2;
     started := [ ({| node_id := 0; node_duration := 2 |}, 2);
                  ({| node_id := 1; node_duration := 3 |}, 4) ];
     stopped := [] |}.

Lemma stopAudioPlayback_cancels_all_witness :
  activeSourceNodesRef (stopAudioPlayback client_speaking) = [] /\
  nextStartTimeRef (stopAudioPlayback client_speaking) = 2 /\
  stopped (stopAudioPlayback client_speaking) = activeSourceNodesRef client_speaking.
Proof.
  pose proof (stopAudioPlayback_cancels_all client_speaking {| currentTime := 2 |} eq_refl)
    as (_ & H2 & H3 & _).
  split; [exact H2 | split; [exact H3 | reflexivity]].
Defined.

End PlaybackFacts.

(** ** Voice activity energy *)

Section VADFacts.
Import VAD.
Local Open Scope R_scope.

Lemma sum_squares_scale (c : R) (frame : list R) (acc : R) :
  fold_left (fun sum x => sum + x * x) (scale c frame) (c * c * acc)
  = c * c * fold_left (fun sum x => sum + x * x) frame acc.
Proof.
  revert acc; induction frame as [|x frame IH]; intros acc; [reflexivity|].
  simpl. rewrite <- IH. f_equal. ring.
Qed.

Lemma sum_squares_nonneg (frame : list R) (acc : R) :
  0 <= acc -> 0 <= fold_left (fun sum x => sum + x * x) frame acc.
Proof.
  revert acc; induction frame as [|x frame IH]; intros acc Hacc; [exact Hacc|].
  simpl. apply IH. pose proof (Rle_0_sqr x) as H. unfold Rsqr in H. Lra.lra.
Qed.

Lemma calculateRMS_nonneg (frame : list R) : 0 <= calculateRMS frame.
Proof. apply sqrt_pos. Qed.

Lemma calculateRMS_scale (c : R) (frame : list R) :
  0 <= c -> calculateRMS (scale c frame) = c * calculateRMS frame.
Proof.
  intros Hc. unfold calculateRMS.
  replace 0 with (c * c * 0) at 1 by ring.
  rewrite sum_squares_scale. unfold scale. rewrite length_map.
  unfold Rdiv. rewrite Rmult_assoc.
  rewrite sqrt_mult_alt by (apply Rmult_le_pos; assumption).
  rewrite sqrt_square by assumption. reflexivity.
Qed.

(** C7.  The energy of a frame is [sqrt(sum(x_i^2) / n)].  Doubling every
    sample of a frame doubles its energy, and a frame above the
    threshold stays above it when doubled.  (Stated for non-empty
    frames, which the non-silent ones are; real arithmetic.) *)
Theorem energy_doubles (A : list R) (threshold : R) :
  A <> [] ->
  let B := scale 2 A in
  calculateRMS A = sqrt (fold_left (fun sum x => sum + x * x) A 0 / INR (length A)) /\
  calculateRMS B = 2 * calculateRMS A /\
  (speech_detected threshold A -> speech_detected threshold B).
Proof.
  intros _ B. split; [reflexivity|].
  assert (H2 : calculateRMS B = 2 * calculateRMS A)
    by (apply calculateRMS_scale; Lra.lra).
  split; [exact H2|].
  unfold speech_detected. rewrite H2.
  pose proof (calculateRMS_nonneg A). Lra.lra.
Qed.

Lemma energy_doubles_witness :
  [1; -1] <> [] /\ calculateRMS (scale 2 [1; -1]) = 2 * calculateRMS [1; -1].
Proof.
  assert (H : [1; -1] <> []) by discriminate.
  split; [exact H|].
  exact (proj1 (proj2 (energy_doubles [1; -1] (1 / 2) H))).
Defined.

End VADFacts.

(** ** The linear-interpolation resampler in exact arithmetic *)

Section LinearFacts.
Import Resampler.
Local Open Scope Q_scope.

Variable ratio : Q.
Hypothesis ratio_pos : 0 < ratio.

(** The position of the loop after [n] passes, and the samples of [n]
    passes. *)
Fixpoint advance (r : Q) (n : nat) : Q :=
  match n with
  | O => r
  | S n' => advance (r + ratio) n'
  end.

Fixpoint outputs_from (channelData : list Q) (r : Q) (n : nat) : list Q :=
  match n with
  | O => []
  | S n' => interpolate channelData r :: outputs_from channelData (r + ratio) n'
  end.

Lemma advance_eq (r : Q) (n : nat) :
  advance r n == r + inject_Z (Z.of_nat n) * ratio.
Proof.
  revert r; induction n as [|n IH]; intros r.
  - simpl. change (inject_Z 0) with 0. ring.
  - cbn [advance]. rewrite IH, Nat2Z.inj_succ. unfold Z.succ.
    rewrite inject_Z_plus. change (inject_Z 1) with 1. ring.
Qed.

Lemma advance_plus (r : Q) (n m : nat) :
  advance r (n + m) = advance (advance r n) m.
Proof.
  revert r; induction n as [|n IH]; intros r; [reflexivity|]. apply IH.
Qed.

Lemma outputs_from_length channelData r n :
  length (outputs_from channelData r n) = n.
Proof.
  revert r; induction n as [|n IH]; intros r; simpl; [reflexivity|].
  rewrite IH. reflexivity.
Qed.

Lemma outputs_from_nth channelData r n k :
  (k < n)%nat ->
  nth k (outputs_from channelData r n) 0 = interpolate channelData (advance r k).
Proof.
  revert r k; induction n as [|n IH]; intros r [|k] Hk; simpl; try lia.
  - reflexivity.
  - apply IH. lia.
Qed.

(** *** The number of passes *)

Lemma Qceiling_minus_1 (x : Q) : Qceiling (x - 1) = (Qceiling x - 1)%Z.
Proof.
  unfold Qceiling.
  replace (Qfloor (- (x - 1))) with (Qfloor (- x) + 1)%Z; [lia|].
  rewrite <- Qfloor_plus_1. apply Qfloor_comp. ring.
Qed.

Lemma passes_zero (len : Z) (r : Q) :
  inject_Z len <= r -> passes len ratio r = O.
Proof.
  intros H. unfold passes.
  assert (Hx : (inject_Z len - r) / ratio <= 0).
  { apply Qle_shift_div_r; [exact ratio_pos|]. qlra. }
  apply Qceiling_resp_le in Hx. change (Qceiling 0) with 0%Z in Hx. lia.
Qed.

Lemma passes_step (len : Z) (r : Q) :
  r < inject_Z len -> passes len ratio r = S (passes len ratio (r + ratio)).
Proof.
  intros H. unfold passes.
  assert (E : (inject_Z len - (r + ratio)) / ratio == (inject_Z len - r) / ratio - 1).
  { field. intro E. rewrite E in ratio_pos. apply (Qlt_irrefl 0), ratio_pos. }
  rewrite (Qceiling_comp _ _ E), Qceiling_minus_1.
  assert (Hx : 0 < (inject_Z len - r) / ratio).
  { apply Qlt_shift_div_l; [exact ratio_pos|]. qlra. }
  pose proof (Qle_ceiling ((inject_Z len - r) / ratio)) as Hc.
  assert (Hc1 : (0 < Qceiling ((inject_Z len - r) / ratio))%Z).
  { rewrite Zlt_Qlt. change (inject_Z 0) with 0. eapply Qlt_le_trans; eassumption. }
  lia.
Qed.

Lemma advance_ge (r : Q) (n : nat) : r <= advance r n.
Proof.
  rewrite advance_eq.
  assert (0 <= inject_Z (Z.of_nat n) * ratio).
  { apply Qmult_le_0_compat; [|lra].
    change 0 with (inject_Z 0). rewrite <- Zle_Qle. lia. }
  lra.
Qed.

(** Pass [k] takes place exactly when position [k] is inside the frame. *)
Lemma passes_spec (len : Z) (r : Q) (k : nat) :
  (k < passes len ratio r)%nat <-> advance r k < inject_Z len.
Proof.
  revert r; induction k as [|k IH]; intros r.
  - cbn [advance]. destruct (Qlt_le_dec r (inject_Z len)) as [H|H].
    + rewrite (passes_step _ _ H). split; [auto | lia].
    + rewrite (passes_zero _ _ H). split; [lia | lra].
  - cbn [advance]. destruct (Qlt_le_dec r (inject_Z len)) as [H|H].
    + rewrite (passes_step _ _ H), <- IH. lia.
    + rewrite (passes_zero _ _ H). split; [lia|].
      pose proof (advance_ge (r + ratio) k). lra.
Qed.

(** The loop, given at least the passes it needs, makes exactly
    [passes] passes. *)
Lemma interpolate_loop_closed channelData :
  forall fuel r,
    (passes (Z.of_nat (length channelData)) ratio r <= fuel)%nat ->
    interpolate_loop fuel channelData ratio r
    = Some (outputs_from channelData r (passes (Z.of_nat (length channelData)) ratio r),
            advance r (passes (Z.of_nat (length channelData)) ratio r)).
Proof.
  induction fuel as [|fuel IH]; intros r Hfuel.
  - cbn [interpolate_loop].
    destruct (Qltb r _) eqn:E.
    + apply Qltb_lt in E. rewrite (passes_step _ _ E) in Hfuel. lia.
    + apply Qltb_ge in E. rewrite (passes_zero _ _ E). reflexivity.
  - cbn [interpolate_loop].
    destruct (Qltb r _) eqn:E.
    + apply Qltb_lt in E. rewrite (passes_step _ _ E) in *.
      rewrite IH by lia. reflexivity.
    + apply Qltb_ge in E. rewrite (passes_zero _ _ E). reflexivity.
Qed.

Lemma Qfloor_bounds (r : Q) (lo hi : Z) :
  inject_Z lo <= r -> r < inject_Z hi -> (lo <= Qfloor r < hi)%Z.
Proof.
  intros Hlo Hhi. split.
  - rewrite <- (Qfloor_Z lo). apply Qfloor_resp_le, Hlo.
  - rewrite Zlt_Qlt. eapply Qle_lt_trans; [apply Qfloor_le | exact Hhi].
Qed.

End LinearFacts.

Section LinearTheorems.
Import Resampler.
Local Open Scope Q_scope.

Lemma rate_ratio_pos (inputSampleRate targetSampleRate : Z) :
  (0 < inputSampleRate)%Z -> (0 < targetSampleRate)%Z ->
  0 < inject_Z inputSampleRate / inject_Z targetSampleRate.
Proof.
  intros Hi Ho.
  assert (0 < inject_Z inputSampleRate)
    by (change 0 with (inject_Z 0); rewrite <- Zlt_Qlt; exact Hi).
  assert (0 < inject_Z targetSampleRate)
    by (change 0 with (inject_Z 0); rewrite <- Zlt_Qlt; exact Ho).
  apply Qlt_shift_div_l; [assumption|]. qlra.
Qed.

Lemma process_linear_closed (inputSampleRate targetSampleRate : Z)
      (channelData : list Q) (r : Q) :
  (0 < inputSampleRate)%Z -> (0 < targetSampleRate)%Z ->
  let ratio := inject_Z inputSampleRate / inject_Z targetSampleRate in
  let len := Z.of_nat (length channelData) in
  process_linear inputSampleRate targetSampleRate channelData r
  = Some (outputs_from ratio channelData r (passes len ratio r),
          advance ratio r (passes len ratio r) - inject_Z len).
Proof.
  intros Hi Ho ratio len. unfold process_linear. fold ratio. fold len.
  unfold len at 1.
  rewrite (interpolate_loop_closed ratio (rate_ratio_pos _ _ Hi Ho)) by (fold len; lia).
  reflexivity.
Qed.

End LinearTheorems.

(** ** Exact operations of binary64 arithmetic *)

Section BinaryExact.

Lemma digits2_size (p : positive) : digits2_pos p = Pos.size p.
Proof. induction p; simpl; congruence. Qed.

Lemma size_bounds (p : positive) :
  2 ^ (Zpos (Pos.size p) - 1) <= Zpos p < 2 ^ Zpos (Pos.size p).
Proof.
  pose proof (Pos.size_gt p) as Hgt. pose proof (Pos.size_le p) as Hle.
  apply Pos2Z.pos_lt_pos in Hgt. apply Pos2Z.pos_le_pos in Hle.
  rewrite Pos2Z.inj_pow in Hgt, Hle. change (Z.pos p~0) with (2 * Z.pos p) in Hle.
  split; [|exact Hgt].
  replace (Zpos (Pos.size p)) with (Zpos (Pos.size p) - 1 + 1) in Hle by lia.
  rewrite Z.pow_add_r in Hle by lia. change (2 ^ 1) with 2 in Hle. lia.
Qed.

Lemma size_unique (p : positive) (d : Z) :
  2 ^ (d - 1) <= Zpos p < 2 ^ d -> Zpos (Pos.size p) = d.
Proof.
  intros [Hlo Hhi]. destruct (size_bounds p) as [Slo Shi].
  assert (0 < d).
  { destruct (Z.lt_ge_cases 0 d) as [|H]; [assumption|].
    assert (2 ^ d <= 2 ^ 0) by (apply Z.pow_le_mono_r; lia).
    change (2 ^ 0) with 1 in *. lia. }
  destruct (Z.lt_trichotomy (Zpos (Pos.size p)) d) as [H1|[H1|H1]]; [|exact H1|].
  - assert (2 ^ Zpos (Pos.size p) <= 2 ^ (d - 1)) by (apply Z.pow_le_mono_r; lia). lia.
  - assert (2 ^ d <= 2 ^ (Zpos (Pos.size p) - 1)) by (apply Z.pow_le_mono_r; lia). lia.
Qed.

(** digits of a mantissa multiplied by a power of two *)
Lemma size_shift (p q : positive) (n : Z) :
  0 <= n -> Zpos q = Zpos p * 2 ^ n ->
  Zpos (Pos.size q) = Zpos (Pos.size p) + n.
Proof.
  intros Hn Hq. apply size_unique. destruct (size_bounds p) as [Slo Shi].
  rewrite Hq.
  replace (Zpos (Pos.size p) + n - 1) with ((Zpos (Pos.size p) - 1) + n) by lia.
  rewrite !Z.pow_add_r by lia.
  assert (0 < 2 ^ n) by (apply Z.pow_pos_nonneg; lia).
  split; [apply Z.mul_le_mono_nonneg_r; lia | apply Z.mul_lt_mono_pos_r; lia].
Qed.

Lemma iter_pos_nat {A : Type} (f : A -> A) (p : positive) (x : A) :
  SpecFloat.iter_pos f p x = Nat.iter (Pos.to_nat p) f x.
Proof.
  revert x; induction p as [p IH|p IH|]; intros x; simpl SpecFloat.iter_pos.
  - rewrite !IH, Pos2Nat.inj_xI, <- Nat.iter_add.
    replace (S (2 * Pos.to_nat p)) with (S (Pos.to_nat p + Pos.to_nat p)) by lia.
    rewrite Nat.iter_succ_r. reflexivity.
  - rewrite !IH, Pos2Nat.inj_xO, <- Nat.iter_add. f_equal. lia.
  - reflexivity.
Qed.

Lemma iter_shr_1_exact (k : nat) (q : positive) :
  Nat.iter k shr_1 (Build_shr_record (Zpos (shift_nat k q)) false false)
  = Build_shr_record (Zpos q) false false.
Proof.
  induction k as [|k IH]; [reflexivity|].
  rewrite Nat.iter_succ_r. simpl shift_nat. simpl shr_1. exact IH.
Qed.

Lemma shift_nat_eq (k : nat) (p q : positive) :
  Zpos p = Zpos q * 2 ^ Z.of_nat k -> p = shift_nat k q.
Proof.
  intros H. apply Pos2Z.inj. rewrite shift_nat_correct, Zpower_nat_Z. lia.
Qed.

(** A mantissa of 53 digits in the exponent range is left alone. *)
Lemma binary_round_aux_canonical (sx : bool) (q : positive) (ex : Z) :
  Zpos (Pos.size q) = 53 -> -1074 <= ex <= 971 ->
  binary_round_aux 53 1024 sx (Zpos q) ex loc_Exact = S754_finite sx q ex.
Proof.
  intros Hd He. unfold binary_round_aux, shr_fexp, SpecFloat.fexp, SpecFloat.emin.
  cbn [Zdigits2 shr_record_of_loc]. rewrite digits2_size, Hd.
  replace (Z.max (53 + ex - 53) (3 - 1024 - 53) - ex) with 0 by lia.
  cbn [shr shr_m loc_of_shr_record round_nearest_even Zdigits2 shr_record_of_loc].
  rewrite digits2_size, Hd.
  replace (Z.max (53 + ex - 53) (3 - 1024 - 53) - ex) with 0 by lia.
  cbn [shr shr_m].
  destruct (ex <=? 1024 - 53) eqn:E; [reflexivity|].
  apply Z.leb_gt in E. lia.
Qed.

(** A mantissa of 53 digits followed by [n] zero bits is rounded
    exactly. *)
Lemma binary_round_aux_exact (sx : bool) (p q : positive) (n ex : Z) :
  0 <= n -> Zpos p = Zpos q * 2 ^ n ->
  Zpos (Pos.size q) = 53 -> -1074 <= ex + n <= 971 ->
  binary_round_aux 53 1024 sx (Zpos p) ex loc_Exact = S754_finite sx q (ex + n).
Proof.
  intros Hn Hp Hd He.
  destruct (Z.eq_dec n 0) as [->|Hn0].
  { assert (p = q) by (apply Pos2Z.inj; rewrite Hp; change (2 ^ 0) with 1; lia).
    subst p. rewrite Z.add_0_r in *. apply binary_round_aux_canonical; assumption. }
  pose proof (size_shift q p n Hn Hp) as Hsize.
  unfold binary_round_aux, shr_fexp, SpecFloat.fexp, SpecFloat.emin.
  cbn [Zdigits2 shr_record_of_loc]. rewrite digits2_size, Hsize, Hd.
  replace (Z.max (53 + n + ex - 53) (3 - 1024 - 53) - ex) with n by lia.
  destruct n as [|n|n]; try lia.
  cbn [shr]. rewrite iter_pos_nat.
  rewrite (shift_nat_eq (Pos.to_nat n) p q) by (rewrite positive_nat_Z; exact Hp).
  rewrite iter_shr_1_exact.
  cbn [shr_m loc_of_shr_record round_nearest_even Zdigits2 shr_record_of_loc].
  rewrite digits2_size, Hd.
  replace (Z.max (53 + (ex + Zpos n) - 53) (3 - 1024 - 53) - (ex + Zpos n)) with 0 by lia.
  cbn [shr shr_m].
  destruct (ex + Zpos n <=? 1024 - 53) eqn:E; [reflexivity|].
  apply Z.leb_gt in E. lia.
Qed.

End BinaryExact.

Section Canon.

Lemma shift_pos_Z (k m : positive) : Zpos (Pos.iter xO m k) = Zpos m * 2 ^ Zpos k.
Proof.
  change (Pos.iter xO m k) with (shift_pos k m).
  rewrite shift_pos_correct, Zpower_pos_nat, Zpower_nat_Z, positive_nat_Z. lia.
Qed.

(** The binary64 representation of [m * 2^e] for a mantissa of at most
    53 digits. *)
Lemma binary_round_small (sg : bool) (m : positive) (e : Z) :
  let d := Zpos (Pos.size m) in
  d <= 53 -> -1074 <= e + d - 53 <= 971 ->
  exists M,
    Zpos M = Zpos m * 2 ^ (53 - d) /\
    Zpos (Pos.size M) = 53 /\
    binary_round 53 1024 sg m e = S754_finite sg M (e + d - 53).
Proof.
  intros d Hd He. unfold binary_round, shl_align, SpecFloat.fexp, SpecFloat.emin.
  rewrite digits2_size. fold d.
  replace (Z.max (d + e - 53) (3 - 1024 - 53) - e) with (d - 53) by lia.
  destruct (d - 53) as [|k|k] eqn:Hk; try lia.
  - exists m. assert (d = 53) by lia.
    replace (53 - d) with 0 by lia. change (2 ^ 0) with 1.
    split; [lia|]. split; [assumption|].
    replace (e + d - 53) with e by lia.
    apply binary_round_aux_canonical; [assumption | lia].
  - exists (Pos.iter xO m k).
    assert (Hs : Zpos (Pos.iter xO m k) = Zpos m * 2 ^ (53 - d)).
    { rewrite shift_pos_Z. f_equal. f_equal. lia. }
    assert (Hz : Zpos (Pos.size (Pos.iter xO m k)) = 53).
    { rewrite (size_shift m _ (53 - d)); [fold d; lia | lia | exact Hs]. }
    split; [exact Hs|]. split; [exact Hz|].
    replace (Z.max (d + e - 53) (3 - 1024 - 53)) with (e + d - 53) by lia.
    apply binary_round_aux_canonical; [exact Hz | lia].
Qed.

Lemma valid_canonical (sg : bool) (M : positive) (E : Z) :
  Zpos (Pos.size M) = 53 -> -1074 <= E <= 971 ->
  valid_binary (S754_finite sg M E) = true.
Proof.
  intros Hd He. unfold SpecFloat.valid_binary, SpecFloat.bounded, SpecFloat.canonical_mantissa,
    SpecFloat.fexp, SpecFloat.emin.
  rewrite digits2_size, Hd. apply andb_true_intro. split.
  - apply Z.eqb_eq. unfold prec, emax. lia.
  - apply Z.leb_le. unfold prec, emax. lia.
Qed.

(** The product of two binary64 numbers whose mantissas multiply to a
    53-digit number followed by zeros is exact. *)
Lemma SFmul_exact (sg : bool) (M1 M2 q : positive) (E1 E2 n : Z) :
  0 <= n -> Zpos M1 * Zpos M2 = Zpos q * 2 ^ n ->
  Zpos (Pos.size q) = 53 -> -1074 <= E1 + E2 + n <= 971 ->
  SFmul 53 1024 (S754_finite sg M1 E1) (S754_finite false M2 E2)
  = S754_finite sg q (E1 + E2 + n).
Proof.
  intros Hn Hp Hd He. unfold SFmul. rewrite xorb_false_r.
  apply binary_round_aux_exact; assumption.
Qed.

Lemma size_mul_ge (a b : positive) :
  Zpos (Pos.size a) + Zpos (Pos.size b) - 1 <= Zpos (Pos.size (a * b))
  <= Zpos (Pos.size a) + Zpos (Pos.size b).
Proof.
  destruct (size_bounds a) as [Alo Ahi]. destruct (size_bounds b) as [Blo Bhi].
  destruct (size_bounds (a * b)) as [Plo Phi]. rewrite Pos2Z.inj_mul in *.
  set (da := Zpos (Pos.size a)) in *. set (db := Zpos (Pos.size b)) in *.
  set (dp := Zpos (Pos.size (a * b))) in *.
  assert (0 < da) by (unfold da; lia). assert (0 < db) by (unfold db; lia).
  assert (0 < dp) by (unfold dp; lia).
  assert (Hlo : 2 ^ (da - 1) * 2 ^ (db - 1) <= Zpos a * Zpos b)
    by (apply Z.mul_le_mono_nonneg; try apply Z.pow_nonneg; lia).
  assert (Hhi : Zpos a * Zpos b < 2 ^ da * 2 ^ db)
    by (apply Z.mul_lt_mono_nonneg; lia).
  rewrite <- Z.pow_add_r in Hlo, Hhi by lia.
  split.
  - destruct (Z.le_gt_cases (da + db - 1) dp) as [|Hc]; [assumption|].
    assert (2 ^ dp <= 2 ^ (da - 1 + (db - 1))) by (apply Z.pow_le_mono_r; lia). lia.
  - destruct (Z.le_gt_cases dp (da + db)) as [|Hc]; [assumption|].
    assert (2 ^ (da + db) <= 2 ^ (dp - 1)) by (apply Z.pow_le_mono_r; lia). lia.
Qed.

End Canon.

(** ** The encoder truncates *)


Section CodecExact.
Import JS Codec.

Lemma bounded_binary32 (m : positive) (e : Z) :
  SpecFloat.bounded 24 128 m e = true ->
  1 <= Zpos (Pos.size m) <= 24 /\ -149 <= e <= 104.
Proof.
  unfold SpecFloat.bounded, SpecFloat.canonical_mantissa, SpecFloat.fexp, SpecFloat.emin.
  rewrite digits2_size. intros H. apply andb_prop in H as [H1 H2].
  apply Z.eqb_eq in H1. apply Z.leb_le in H2. lia.
Qed.

(** The binary64 number that holds a binary32 value. *)
Lemma float32_repr (sg : bool) (m : positive) (e : Z) :
  SpecFloat.bounded 24 128 m e = true ->
  let d := Zpos (Pos.size m) in
  exists M,
    Prim2SF (float32 sg m e) = S754_finite sg M (e + d - 53) /\
    Zpos M = Zpos m * 2 ^ (53 - d) /\
    Zpos (Pos.size M) = 53.
Proof.
  intros Hb d. destruct (bounded_binary32 m e Hb) as [Hd He]. fold d in Hd.
  destruct (binary_round_small sg m e) as (M & HM & Hs & Hr); fold d; try lia.
  exists M. split; [|split; assumption].
  unfold float32. rewrite Hr. apply Prim2SF_SF2Prim.
  apply valid_canonical; [exact Hs | lia].
Qed.

Definition two52 : positive := 4503599627370496.

Lemma two52_least (M : positive) :
  Zpos (Pos.size M) = 53 -> (two52 <= M)%positive.
Proof.
  intros H. destruct (size_bounds M) as [Hlo _]. rewrite H in Hlo.
  change (2 ^ (53 - 1)) with (Zpos two52) in Hlo. exact Hlo.
Qed.

(** [Math.max(-1, Math.min(1, s))] on a finite non-zero number. *)
Lemma clamp_finite (s : float) (sg : bool) (M : positive) (E : Z) :
  Prim2SF s = S754_finite sg M E ->
  Zpos (Pos.size M) = 53 ->
  Math_max (-1)%float (Math_min 1%float s)
  = if E <? -52 then s else if sg then (-1)%float else 1%float.
Proof.
  intros Hs Hd. pose proof (two52_least M Hd) as Hle.
  assert (H1 : Prim2SF 1%float = S754_finite false two52 (-52)) by reflexivity.
  assert (Hm1 : Prim2SF (-1)%float = S754_finite true two52 (-52)) by reflexivity.
  unfold Math_min. rewrite FloatAxioms.compare_spec, H1, Hs.
  destruct sg.
  - (* s < 0 *)
    cbn [SFcompare flatten_cmp_opt].
    unfold Math_max. rewrite FloatAxioms.compare_spec, Hm1, Hs. cbn [SFcompare].
    destruct (Z.compare_spec (-52) E) as [HE|HE|HE]; cbn [flatten_cmp_opt].
    + replace (E <? -52) with false by (symmetry; apply Z.ltb_ge; lia).
      fold (Pos.compare two52 M).
      destruct (Pos.compare_spec two52 M) as [HM|HM|HM]; cbn [CompOpp flatten_cmp_opt].
      * (* s is -1 *)
        change (get_sign (-1)%float) with true. cbn iota.
        apply Prim2SF_inj. rewrite Hs, Hm1, HM, <- HE. reflexivity.
      * reflexivity.
      * exfalso. apply (Pos.lt_irrefl M). eapply Pos.lt_le_trans; eassumption.
    + replace (E <? -52) with false by (symmetry; apply Z.ltb_ge; lia). reflexivity.
    + replace (E <? -52) with true by (symmetry; apply Z.ltb_lt; lia). reflexivity.
  - (* 0 < s *)
    cbn [SFcompare].
    destruct (Z.compare_spec (-52) E) as [HE|HE|HE]; cbn [flatten_cmp_opt].
    + replace (E <? -52) with false by (symmetry; apply Z.ltb_ge; lia).
      fold (Pos.compare two52 M).
      destruct (Pos.compare_spec two52 M) as [HM|HM|HM]; cbn [flatten_cmp_opt].
      * change (get_sign 1%float) with false. cbn iota.
        assert (s = 1%float)
          by (apply Prim2SF_inj; rewrite Hs, H1, HM, <- HE; reflexivity).
        subst s. reflexivity.
      * reflexivity.
      * exfalso. apply (Pos.lt_irrefl M). eapply Pos.lt_le_trans; eassumption.
    + replace (E <? -52) with false by (symmetry; apply Z.ltb_ge; lia). reflexivity.
    + replace (E <? -52) with true by (symmetry; apply Z.ltb_lt; lia).
      unfold Math_max. rewrite FloatAxioms.compare_spec, Hm1, Hs. reflexivity.
Qed.

End CodecExact.

Section CodecTruncation.
Import JS Codec.

Lemma wrap16 (t : Z) :
  -32768 <= t <= 32767 ->
  (let int16bit := t mod 65536 in
   if 32768 <=? int16bit then int16bit - 65536 else int16bit) = t.
Proof.
  intros Ht. cbv zeta.
  destruct (Z.leb_spec 32768 (t mod 65536)) as [H|H];
    revert H; Z.div_mod_to_equations; lia.
Qed.

Lemma shift_right_exponent (q : positive) (E : Z) :
  E < 0 ->
  match E with
  | Zneg p => Z.shiftr (Zpos q) (Zpos p)
  | _ => Z.shiftl (Zpos q) E
  end = Zpos q / 2 ^ (- E).
Proof.
  intros HE. destruct E as [|p|p]; try lia.
  rewrite Z.shiftr_div_pow2 by lia. reflexivity.
Qed.

Lemma scaled_quotient (P q : Z) (j e : Z) :
  q = P * 2 ^ j -> 0 <= j -> e <= 0 ->
  q / 2 ^ (j - e) = P / 2 ^ (- e).
Proof.
  intros Hq Hj He. subst q.
  replace (j - e) with (- e + j) by lia.
  rewrite Z.pow_add_r by lia.
  assert (0 < 2 ^ j) by (apply Z.pow_pos_nonneg; lia).
  assert (0 < 2 ^ (- e)) by (apply Z.pow_pos_nonneg; lia).
  apply Z.div_mul_cancel_r; lia.
Qed.

Lemma product_mantissa (m K M KM q : Z) (d dp KE : Z) :
  M = m * 2 ^ (53 - d) -> KM = K * 2 ^ (- KE) -> q = m * K * 2 ^ (53 - dp) ->
  0 <= 53 - d -> 0 <= - KE -> 0 <= 53 - dp -> 0 <= dp - d - KE ->
  M * KM = q * 2 ^ (dp - d - KE).
Proof.
  intros -> -> -> H1 H2 H3 H4.
  replace (m * 2 ^ (53 - d) * (K * 2 ^ (- KE)))
    with (m * K * (2 ^ (53 - d) * 2 ^ (- KE))) by ring.
  replace (m * K * 2 ^ (53 - dp) * 2 ^ (dp - d - KE))
    with (m * K * (2 ^ (53 - dp) * 2 ^ (dp - d - KE))) by ring.
  f_equal. rewrite <- !Z.pow_add_r by lia. f_equal. lia.
Qed.

(** The product of a binary32 sample of magnitude below one by a
    constant of at most 16 bits is exact in binary64, so its truncation
    is that of the exact product. *)
Lemma truncate_scaled (s Kf : float) (sg : bool) (m M K KM : positive) (e KE : Z) :
  let d := Zpos (Pos.size m) in
  Prim2SF s = S754_finite sg M (e + d - 53) ->
  Zpos M = Zpos m * 2 ^ (53 - d) ->
  1 <= d <= 24 -> -149 <= e -> d + e <= 0 ->
  Prim2SF Kf = S754_finite false KM KE ->
  Zpos KM = Zpos K * 2 ^ (- KE) -> KE <= 0 -> Zpos (Pos.size K) <= 16 ->
  truncate (s * Kf)%float = cond_Zopp sg (Zpos m * Zpos K / 2 ^ (- e)).
Proof.
  intros d Hs HM Hd He Hde HK HKM HKE HdK.
  pose proof (size_mul_ge m K) as Hdp. fold d in Hdp.
  set (dp := Zpos (Pos.size (m * K))) in *.
  assert (HdK1 : 1 <= Zpos (Pos.size K)) by lia.
  destruct (binary_round_small false (m * K) 0) as (q & Hq & Hqs & _);
    fold dp; try lia.
  fold dp in Hq. rewrite Pos2Z.inj_mul in Hq.
  unfold truncate. rewrite FloatAxioms.mul_spec, Hs, HK. unfold SF64mul.
  rewrite (SFmul_exact sg M KM q _ _ (dp - d - KE)); try lia; try assumption.
  - replace (e + d - 53 + KE + (dp - d - KE)) with (e + dp - 53) by lia.
    rewrite shift_right_exponent by lia. f_equal.
    replace (- (e + dp - 53)) with (53 - dp - e) by lia.
    apply scaled_quotient; [exact Hq | lia | lia].
  - apply (product_mantissa (Zpos m) (Zpos K) _ _ _ d dp KE); try assumption; lia.
Qed.

Lemma quotient_below (m K : positive) (e : Z) :
  Zpos (Pos.size m) + e <= 0 ->
  0 <= Zpos m * Zpos K / 2 ^ (- e) < Zpos K.
Proof.
  intros H. destruct (size_bounds m) as [_ Hm].
  assert (Hp : 2 ^ Zpos (Pos.size m) <= 2 ^ (- e)) by (apply Z.pow_le_mono_r; lia).
  assert (0 < 2 ^ (- e)) by (apply Z.pow_pos_nonneg; lia).
  split; [apply Z.div_pos; lia|].
  apply Z.div_lt_upper_bound; [lia|]. nia.
Qed.

Lemma prim_0x8000 : Prim2SF 0x8000%float = S754_finite false two52 (-37).
Proof. reflexivity. Qed.

Lemma prim_0x7FFF : Prim2SF 0x7FFF%float = S754_finite false 9006924376834048 (-38).
Proof. reflexivity. Qed.

Lemma sample_to_int16_finite (sg : bool) (m : positive) (e : Z) :
  SpecFloat.bounded 24 128 m e = true ->
  let K := if sg then 32768 else 32767 in
  sample_to_int16 (float32 sg m e)
  = if 0 <? Zpos (Pos.size m) + e
    then cond_Zopp sg K
    else Z.quot (cond_Zopp sg (Zpos m) * K) (2 ^ (- e)).
Proof.
  intros Hb K.
  destruct (bounded_binary32 m e Hb) as [Hd He].
  destruct (float32_repr sg m e Hb) as (M & Hs & HM & HMs).
  set (s := float32 sg m e) in *. set (d := Zpos (Pos.size m)) in *.
  unfold sample_to_int16. rewrite (clamp_finite s sg M _ Hs HMs).
  destruct (Z.ltb_spec 0 (d + e)) as [Hc|Hc].
  - replace (e + d - 53 <? -52) with false by (symmetry; apply Z.ltb_ge; lia).
    unfold K. destruct sg; vm_compute; reflexivity.
  - replace (e + d - 53 <? -52) with true by (symmetry; apply Z.ltb_lt; lia).
    rewrite FloatAxioms.ltb_spec, Hs.
    change (Prim2SF 0%float) with (S754_zero false).
    pose proof (Z.pow_pos_nonneg 2 (- e) ltac:(lia) ltac:(lia)) as Hpow.
    unfold K. destruct sg; cbn [SFltb SFcompare cond_Zopp]; unfold ToInt16.
    + rewrite (truncate_scaled s _ true m M 32768 two52 e (-37) Hs HM Hd (proj1 He) Hc
                 prim_0x8000 eq_refl ltac:(lia) ltac:(vm_compute; discriminate)).
      pose proof (quotient_below m 32768 e Hc) as Hq.
      cbn [cond_Zopp]. rewrite wrap16 by lia.
      change (Z.neg m) with (- Zpos m). rewrite Z.mul_opp_l, Z.quot_opp_l by lia.
      rewrite Z.quot_div_nonneg by lia. reflexivity.
    + rewrite (truncate_scaled s _ false m M 32767 9006924376834048 e (-38) Hs HM Hd
                 (proj1 He) Hc prim_0x7FFF eq_refl ltac:(lia) ltac:(vm_compute; discriminate)).
      pose proof (quotient_below m 32767 e Hc) as Hq.
      cbn [cond_Zopp]. rewrite wrap16 by lia.
      rewrite Z.quot_div_nonneg by lia. reflexivity.
Qed.

(** The exact value of a binary32 sample. *)
Lemma float32_value (sg : bool) (m : positive) (e : Z) :
  SpecFloat.bounded 24 128 m e = true ->
  (to_Q (float32 sg m e) == inject_Z (cond_Zopp sg (Zpos m)) * 2 ^ e)%Q.
Proof.
  intros Hb. destruct (bounded_binary32 m e Hb) as [Hd He].
  destruct (float32_repr sg m e Hb) as (M & Hs & HM & _).
  unfold to_Q. rewrite Hs.
  set (d := Zpos (Pos.size m)) in *.
  assert (Hc : cond_Zopp sg (Zpos M) = cond_Zopp sg (Zpos m) * 2 ^ (53 - d)).
  { rewrite HM. destruct sg; cbn [cond_Zopp]; ring. }
  rewrite Hc, inject_Z_mult, Zpower_Qpower by lia.
  replace e with ((53 - d) + (e + d - 53)) at 2 by lia.
  rewrite (Qpower_plus (inject_Z 2)) by discriminate.
  change (inject_Z 2) with 2%Q. ring.
Qed.

(** C2 (as amended).  For every binary32 sample [s = ±m * 2^e], the
    encoder clamps [s] to [-1, 1] and returns the product with 32768
    (negative samples) or 32767 (the others) truncated toward zero, not
    rounded to the nearest integer: the product is exact, and the store
    into the [Int16Array] drops its fraction.  At or beyond ±1 the
    result is -32768 or 32767; a zero and NaN give 0, the infinities
    saturate. *)
Theorem sample_to_int16_truncates (sg : bool) (m : positive) (e : Z) :
  SpecFloat.bounded 24 128 m e = true ->
  let s := float32 sg m e in
  let n := cond_Zopp sg (Zpos m) in
  let K := if sg then 32768 else 32767 in
  (to_Q s == inject_Z n * 2 ^ e)%Q /\
  sample_to_int16 s
  = (if 0 <? Zpos (Pos.size m) + e
     then cond_Zopp sg K
     else Z.quot (n * K) (2 ^ (- e))) /\
  -32768 <= sample_to_int16 s <= 32767 /\
  sample_to_int16 0%float = 0 /\ sample_to_int16 (-0)%float = 0 /\
  sample_to_int16 nan = 0 /\
  sample_to_int16 infinity = 32767 /\ sample_to_int16 neg_infinity = -32768.
Proof.
  intros Hb s n K.
  split; [apply float32_value, Hb|].
  pose proof (sample_to_int16_finite sg m e Hb) as H. cbv zeta in H. fold s n K in H.
  split; [exact H|].
  split.
  { unfold sample_to_int16, ToInt16.
    set (t := truncate _ mod 65536).
    assert (0 <= t < 65536) by (apply Z.mod_pos_bound; lia).
    destruct (Z.leb_spec 32768 t); lia. }
  repeat split; vm_compute; reflexivity.
Qed.

Lemma sample_to_int16_truncates_witness :
  SpecFloat.bounded 24 128 8388608 (-24) = true /\
  float32 false 8388608 (-24) = 0.5%float /\
  sample_to_int16 (float32 false 8388608 (-24)) = 16383.
Proof.
  split; [reflexivity|]. split; [reflexivity|].
  exact (proj1 (proj2 (sample_to_int16_truncates false 8388608 (-24) eq_refl))).
Defined.

(** C2 (as stated) fails: half of full scale is 16383.5 before the
    store; rounding to the nearest integer would give 16384, the code
    gives 16383. *)
Lemma sample_to_int16_does_not_round :
  sample_to_int16 0.5%float = 16383 /\
  floatToInt16_rounding 0.5%float = 16384 /\
  sample_to_int16 0.5%float <> floatToInt16_rounding 0.5%float.
Proof.
  assert (H1 : sample_to_int16 0.5%float = 16383) by (vm_compute; reflexivity).
  assert (H2 : floatToInt16_rounding 0.5%float = 16384) by (vm_compute; reflexivity).
  split; [exact H1|]. split; [exact H2|]. rewrite H1, H2. discriminate.
Qed.

End CodecTruncation.

(** ** Capture processor: what the chunks hold *)

Section CaptureStream.
Import Capture.
Local Open Scope nat_scope.

(** The samples waiting in the accumulation buffer. *)
Definition pending (st : AudioProcessor) : list float :=
  firstn (bufferIndex st) (buffer st).

(** Every sample posted so far, chunk after chunk, then the samples
    waiting, all as 16-bit values. *)
Definition delivered (st : AudioProcessor) : list Z :=
  concat (emitted st) ++ map Codec.sample_to_int16 (pending st).

Lemma map_nth_seq {A B : Type} (f : A -> B) (l : list A) (d : A) :
  map (fun i => f (nth i l d)) (seq 0 (length l)) = map f l.
Proof.
  induction l as [|a l IH]; [reflexivity|].
  cbn [length seq map nth]. f_equal.
  rewrite <- seq_shift, map_map. exact IH.
Qed.

Lemma firstn_store_next {A : Type} (arr : list A) i v :
  i < length arr -> firstn (S i) (store arr i v) = firstn i arr ++ [v].
Proof.
  revert i; induction arr as [|a arr IH]; intros [|i] Hi; simpl in *; try lia.
  - reflexivity.
  - f_equal. apply IH. lia.
Qed.

Lemma store_last {A : Type} (arr : list A) i v :
  S i = length arr -> store arr i v = firstn i arr ++ [v].
Proof.
  intros Hi. rewrite store_split by lia.
  rewrite skipn_all2 by lia. reflexivity.
Qed.

(** X1.  The chunk that [flush] posts is [convertFloat32ToInt16] of the
    accumulation buffer: the conversion inlined in the processor is the
    one of [audioUtils]. *)
Theorem flush_posts_converted_buffer (st : AudioProcessor) :
  length (buffer st) = chunkSize st ->
  port (flush st)
  = port st ++ [audio_data (Codec.convertFloat32ToInt16 (buffer st))] /\
  bufferIndex (flush st) = 0 /\
  buffer (flush st) = buffer st.
Proof.
  intros Hlen. unfold flush. cbn [port set_bufferIndex postMessage bufferIndex buffer].
  rewrite convertFloat32ToInt16_map, <- Hlen, map_nth_seq. auto.
Qed.

Lemma delivered_push v st :
  well_formed st ->
  delivered (push v st) = delivered st ++ [Codec.sample_to_int16 v].
Proof.
  intros (Hpos & Hidx & Hlen). unfold delivered, pending, push, emitted.
  cbn [chunkSize bufferIndex buffer set_bufferIndex set_buffer].
  destruct (chunkSize st <=? S (bufferIndex st)) eqn:E.
  - apply Nat.leb_le in E.
    unfold flush.
    cbn [port postMessage set_bufferIndex set_buffer buffer chunkSize bufferIndex firstn].
    rewrite flat_map_app. cbn [flat_map]. rewrite !app_nil_r, concat_app.
    cbn [concat map]. rewrite app_nil_r, <- app_assoc. f_equal.
    rewrite <- Hlen, <- (store_length (buffer st) (bufferIndex st) v), map_nth_seq.
    rewrite store_last by lia. rewrite map_app. reflexivity.
  - apply Nat.leb_gt in E.
    cbn [port set_bufferIndex set_buffer buffer bufferIndex].
    rewrite firstn_store_next by lia.
    rewrite map_app, app_assoc. reflexivity.
Qed.

Lemma delivered_push_all samples :
  forall st,
    well_formed st ->
    delivered (push_all samples st)
    = delivered st ++ map Codec.sample_to_int16 samples.
Proof.
  induction samples as [|v samples IH]; intros st Hwf.
  - simpl. rewrite app_nil_r. reflexivity.
  - cbn [push_all fold_left map]. fold (push_all samples (push v st)).
    rewrite IH.
    + rewrite delivered_push by exact Hwf. rewrite <- app_assoc. reflexivity.
    + apply (accumulated_push st 0 st v (accumulated_refl st Hwf)).
Qed.

Lemma delivered_set_residue r st : delivered (set_residue r st) = delivered st.
Proof. reflexivity. Qed.

Lemma delivered_vad_stage channelData st :
  delivered (vad_stage channelData st) = delivered st.
Proof.
  unfold vad_stage, delivered, pending, emitted.
  destruct (vadThreshold st <? frame_rms channelData)%float;
    cbn [volumeSkipCounter set_volumeSkipCounter postMessage];
    destruct (3 <=? _)%Z;
    cbn [port buffer bufferIndex set_volumeSkipCounter postMessage];
    rewrite ?flat_map_app; cbn [flat_map]; rewrite ?app_nil_r; reflexivity.
Qed.

Lemma well_formed_vad_stage channelData st :
  well_formed st -> well_formed (vad_stage channelData st).
Proof.
  intros H. destruct (vad_stage_keeps_buffer channelData st) as (Hb & Hi & Hc).
  unfold well_formed. rewrite Hb, Hi, Hc. exact H.
Qed.

Lemma delivered_nearest_loop fuel channelData ratio :
  forall st,
    well_formed st ->
    delivered (nearest_loop fuel channelData ratio st)
    = delivered st
      ++ map Codec.sample_to_int16
             (nearest_samples fuel channelData ratio (residue st))
    /\ well_formed (nearest_loop fuel channelData ratio st).
Proof.
  induction fuel as [|fuel IH]; intros st Hwf.
  - simpl. rewrite app_nil_r. auto.
  - cbn [nearest_loop nearest_samples].
    destruct (Qltb (residue st) _); [|simpl; rewrite app_nil_r; auto].
    destruct (Qfloor (residue st) <? Z.of_nat (length channelData))%Z.
    + set (v := sample_at channelData (Qfloor (residue st))).
      assert (Hwf1 : well_formed (push v st))
        by apply (accumulated_push st 0 st v (accumulated_refl st Hwf)).
      destruct (IH (set_residue (residue (push v st) + ratio) (push v st)) Hwf1)
        as [Hd Hw].
      split; [|exact Hw].
      rewrite Hd, delivered_set_residue, delivered_push by exact Hwf.
      cbn [residue set_residue]. rewrite residue_push.
      rewrite map_app, <- app_assoc. reflexivity.
    + destruct (IH (set_residue (residue st + ratio) st) Hwf) as [Hd Hw].
      split; [|exact Hw]. rewrite Hd. reflexivity.
Qed.

Lemma well_formed_push_all samples st :
  well_formed st -> well_formed (push_all samples st).
Proof.
  intros Hwf.
  apply (accumulated_push_all st 0 st samples (accumulated_refl st Hwf)).
Qed.

Lemma delivered_process sampleRate input st :
  well_formed st ->
  delivered (process sampleRate input st)
  = delivered st ++ map Codec.sample_to_int16 (resampled sampleRate input st)
  /\ well_formed (process sampleRate input st).
Proof.
  intros Hwf. unfold process, resampled. destruct input as [|channelData others].
  - simpl. rewrite app_nil_r. auto.
  - destruct (vad_stage_keeps channelData st) as [Hr Ht]. rewrite Ht.
    pose proof (well_formed_vad_stage channelData st Hwf) as Hwf1.
    destruct (Qeq_bool _ 1).
    + rewrite delivered_push_all, delivered_vad_stage by exact Hwf1.
      split; [reflexivity | apply well_formed_push_all, Hwf1].
    + destruct (delivered_nearest_loop
                  (Resampler.passes (Z.of_nat (length channelData))
                     (inject_Z sampleRate / inject_Z (targetSampleRate st))
                     (residue (vad_stage channelData st)))
                  channelData
                  (inject_Z sampleRate / inject_Z (targetSampleRate st))
                  (vad_stage channelData st) Hwf1) as [Hd Hw].
      split; [|exact Hw].
      rewrite delivered_set_residue, Hd, delivered_vad_stage, Hr. reflexivity.
Qed.

(** X2.  Chunking neither loses, duplicates nor reorders a sample: after
    any run of callbacks, the chunks posted, one after the other, followed
    by the samples still buffered, are the 16-bit conversion of what was
    delivered before followed by the resampled stream of the run. *)
Theorem chunking_preserves_stream
        (sampleRate : Z) (callbacks : list (list (list float)))
        (st : AudioProcessor) :
  well_formed st ->
  delivered (run sampleRate callbacks st)
  = delivered st
    ++ map Codec.sample_to_int16 (resampled_stream sampleRate callbacks st).
Proof.
  revert st; induction callbacks as [|input rest IH]; intros st Hwf.
  - simpl. rewrite app_nil_r. reflexivity.
  - cbn [run resampled_stream].
    destruct (delivered_process sampleRate input st Hwf) as [Hd Hw].
    rewrite IH by exact Hw. rewrite Hd, map_app, <- app_assoc. reflexivity.
Qed.

Lemma chunking_preserves_stream_witness :
  delivered (run 32000 small_run small_processor)
  = [8191; 8191; 8191; 8191; 8191; 8191; 16383; 16383; 16383]%Z.
Proof.
  assert (Hwf : well_formed small_processor)
    by (unfold well_formed; cbn; repeat split; lia).
  rewrite (chunking_preserves_stream 32000 small_run small_processor Hwf).
  vm_compute. reflexivity.
Defined.

Lemma flush_posts_converted_buffer_witness :
  port (flush small_processor) = [audio_data [0; 0; 0; 0]%Z].
Proof.
  rewrite (proj1 (flush_posts_converted_buffer small_processor eq_refl)).
  vm_compute. reflexivity.
Defined.

End CaptureStream.

(** ** Capture processor: the order and the rate of the messages *)

Section CaptureMessages.
Import Capture.

(** [st] is [st0] after some chunks were posted, and nothing else. *)
Definition only_chunks_since (st0 st : AudioProcessor) : Prop :=
  volumeSkipCounter st = volumeSkipCounter st0 /\
  exists chunks, port st = port st0 ++ map audio_data chunks.

Lemma only_chunks_refl st : only_chunks_since st st.
Proof. split; [reflexivity|]. exists []. simpl. rewrite app_nil_r. reflexivity. Qed.

Lemma only_chunks_trans st0 st1 st2 :
  only_chunks_since st0 st1 -> only_chunks_since st1 st2 -> only_chunks_since st0 st2.
Proof.
  intros [Hc1 [c1 H1]] [Hc2 [c2 H2]]. split; [congruence|].
  exists (c1 ++ c2). rewrite H2, H1, map_app, app_assoc. reflexivity.
Qed.

Lemma only_chunks_push v st : only_chunks_since st (push v st).
Proof.
  unfold push. cbn [chunkSize bufferIndex set_bufferIndex set_buffer].
  destruct (_ <=? _)%nat.
  - split; [reflexivity|]. eexists [_]. reflexivity.
  - split; [reflexivity|]. exists []. simpl. rewrite app_nil_r. reflexivity.
Qed.

Lemma only_chunks_push_all samples st : only_chunks_since st (push_all samples st).
Proof.
  revert st; induction samples as [|v samples IH]; intros st.
  - apply only_chunks_refl.
  - cbn [push_all fold_left]. fold (push_all samples (push v st)).
    eapply only_chunks_trans; [apply only_chunks_push | apply IH].
Qed.

Lemma only_chunks_nearest_loop fuel channelData ratio st :
  only_chunks_since st (nearest_loop fuel channelData ratio st).
Proof.
  revert st; induction fuel as [|fuel IH]; intros st.
  - apply only_chunks_refl.
  - cbn [nearest_loop]. destruct (Qltb _ _); [|apply only_chunks_refl].
    destruct (_ <? _)%Z.
    + eapply only_chunks_trans; [apply only_chunks_push|].
      eapply only_chunks_trans; [|apply IH].
      split; [reflexivity|]. exists []. simpl. rewrite app_nil_r. reflexivity.
    + eapply only_chunks_trans; [|apply IH].
      split; [reflexivity|]. exists []. simpl. rewrite app_nil_r. reflexivity.
Qed.

Lemma only_chunks_resampling sampleRate channelData others st :
  only_chunks_since (vad_stage channelData st)
                    (process sampleRate (channelData :: others) st).
Proof.
  unfold process. destruct (Qeq_bool _ 1).
  - apply only_chunks_push_all.
  - eapply only_chunks_trans; [apply only_chunks_nearest_loop|].
    split; [reflexivity|]. exists []. simpl. rewrite app_nil_r. reflexivity.
Qed.

(** X3.  In one callback the processor posts, in this order: the VAD
    signal, if and only if the energy of the raw frame exceeds the
    threshold; the volume, on every third callback; then the chunks that
    the frame completes.  So the VAD signal of a frame is never behind
    its audio, and there is at most one per frame. *)
Theorem process_posts_vad_first
        (sampleRate : Z) (channelData : list float) (others : list (list float))
        (st : AudioProcessor) :
  let rms := frame_rms channelData in
  exists chunks,
    port (process sampleRate (channelData :: others) st)
    = port st
      ++ (if (vadThreshold st <? rms)%float then [vad_signal] else [])
      ++ (if (3 <=? volumeSkipCounter st + 1)%Z then [volume rms] else [])
      ++ map audio_data chunks.
Proof.
  intros rms.
  destruct (only_chunks_resampling sampleRate channelData others st) as [_ [chunks H]].
  exists chunks. rewrite H. unfold vad_stage. fold rms.
  destruct (vadThreshold st <? rms)%float;
    cbn [volumeSkipCounter set_volumeSkipCounter postMessage];
    destruct (3 <=? volumeSkipCounter st + 1)%Z;
    cbn [port set_volumeSkipCounter postMessage app];
    rewrite <- ?app_assoc; reflexivity.
Qed.

Lemma process_posts_vad_first_witness :
  exists chunks,
    port (process 48000 [[0.5; 0.25]%float] constructor)
    = port constructor ++ [vad_signal] ++ [] ++ map audio_data chunks.
Proof.
  exact (process_posts_vad_first 48000 [0.5; 0.25]%float [] constructor).
Defined.

(** The volume messages posted so far. *)
Definition volumes (st : AudioProcessor) : Z :=
  Z.of_nat (length (filter (fun m => match m with volume _ => true | _ => false end)
                           (port st))).

Lemma volumes_only_chunks st0 st :
  only_chunks_since st0 st -> volumes st = volumes st0.
Proof.
  intros [_ [chunks H]]. unfold volumes. rewrite H, filter_app, length_app.
  replace (filter _ (map audio_data chunks)) with (@nil message);
    [simpl; lia|].
  clear H. induction chunks as [|c chunks IH]; [reflexivity | exact IH].
Qed.

Lemma throttle_process sampleRate channelData others st :
  0 <= volumeSkipCounter st < 3 ->
  let st' := process sampleRate (channelData :: others) st in
  0 <= volumeSkipCounter st' < 3 /\
  volumeSkipCounter st + 1 = 3 * (volumes st' - volumes st) + volumeSkipCounter st'.
Proof.
  intros Hc st'.
  pose proof (only_chunks_resampling sampleRate channelData others st) as Hoc.
  fold st' in Hoc. rewrite (volumes_only_chunks _ _ Hoc). destruct Hoc as [Hk _].
  rewrite Hk. unfold vad_stage, volumes.
  destruct (vadThreshold st <? frame_rms channelData)%float;
    cbn [volumeSkipCounter set_volumeSkipCounter postMessage];
    destruct (Z.leb_spec 3 (volumeSkipCounter st + 1));
    cbn [port volumeSkipCounter set_volumeSkipCounter postMessage];
    rewrite ?filter_app, ?length_app; cbn [filter length]; lia.
Qed.

(** X4.  The volume message is throttled to one callback in three: over a
    run of [n] callbacks that carry a channel, the counter and the number
    of volume messages posted account for every callback,
    [counter + n = 3 * posted + counter'] with [0 <= counter' < 3]. *)
Theorem volume_every_third_callback
        (sampleRate : Z) (callbacks : list (list (list float)))
        (st : AudioProcessor) :
  Forall (fun input => input <> []) callbacks ->
  0 <= volumeSkipCounter st < 3 ->
  let st' := run sampleRate callbacks st in
  0 <= volumeSkipCounter st' < 3 /\
  volumeSkipCounter st + Z.of_nat (length callbacks)
  = 3 * (volumes st' - volumes st) + volumeSkipCounter st'.
Proof.
  intros Hall. revert st; induction Hall as [|input rest Hin _ IH]; intros st Hc.
  - cbv zeta. cbn [run length Z.of_nat]. lia.
  - destruct input as [|channelData others]; [congruence|].
    cbn [run length].
    destruct (throttle_process sampleRate channelData others st Hc) as [Hc1 H1].
    destruct (IH _ Hc1) as [Hc2 H2].
    cbv zeta. split; [exact Hc2|]. lia.
Qed.

Lemma volume_every_third_callback_witness :
  volumes (run 32000 (small_run ++ small_run ++ small_run ++ [[[0.5%float]]])
               small_processor) = 2.
Proof.
  destruct (volume_every_third_callback 32000
              (small_run ++ small_run ++ small_run ++ [[[0.5%float]]])
              small_processor
              ltac:(repeat constructor; discriminate)
              ltac:(cbn; lia)) as [H1 H2].
  vm_compute. reflexivity.
Defined.

End CaptureMessages.

(** ** The resamplers stay within the range of their input *)

Section RangeFacts.
Import Resampler.
Local Open Scope Q_scope.

Variables lo hi : Q.






(** A linear interpolation between two values of the range, at a weight
    between 0 and 1, is in the range. *)
Lemma lerp_within (s0 s1 d : Q) :
  lo <= s0 <= hi -> lo <= s1 <= hi -> 0 <= d -> d <= 1 ->
  lo <= s0 + (s1 - s0) * d <= hi.
Proof.
  intros [A0 B0] [A1 B1] D0 D1.
  assert (E : s0 + (s1 - s0) * d == s0 * (1 - d) + s1 * d) by ring.
  rewrite E.
  assert (L0 : 0 <= (s0 - lo) * (1 - d)) by (apply Qmult_le_0_compat; lra).
  assert (L1 : 0 <= (s1 - lo) * d) by (apply Qmult_le_0_compat; lra).
  assert (U0 : 0 <= (hi - s0) * (1 - d)) by (apply Qmult_le_0_compat; lra).
  assert (U1 : 0 <= (hi - s1) * d) by (apply Qmult_le_0_compat; lra).
  split.
  - assert (E' : s0 * (1 - d) + s1 * d
                 == lo + ((s0 - lo) * (1 - d) + (s1 - lo) * d)) by ring.
    rewrite E'. lra.
  - assert (E' : s0 * (1 - d) + s1 * d
                 == hi - ((hi - s0) * (1 - d) + (hi - s1) * d)) by ring.
    rewrite E'. lra.
Qed.

Lemma sample_at_within (channelData : list Q) (i : Z) :
  Forall (fun x => lo <= x <= hi) channelData ->
  (0 <= i < Z.of_nat (length channelData))%Z ->
  lo <= sample_at channelData i <= hi.
Proof.
  intros H Hi. unfold sample_at.
  destruct (i <? 0)%Z eqn:E; [apply Z.ltb_lt in E; lia|].
  rewrite Forall_forall in H. apply H, nth_In. lia.
Qed.

Lemma interpolate_within (channelData : list Q) (r : Q) :
  Forall (fun x => lo <= x <= hi) channelData ->
  0 <= r -> r < inject_Z (Z.of_nat (length channelData)) ->
  lo <= interpolate channelData r <= hi.
Proof.
  intros H H0 Hr. unfold interpolate.
  destruct (Qfloor_bounds r 0 _ H0 Hr) as [F0 F1].
  pose proof (sample_at_within channelData (Qfloor r) H (conj F0 F1)) as S0.
  apply lerp_within.
  - exact S0.
  - destruct (Qfloor r + 1 <? Z.of_nat (length channelData))%Z eqn:E; [|exact S0].
    apply Z.ltb_lt in E. apply sample_at_within; [exact H | lia].
  - pose proof (Qfloor_le r). lra.
  - pose proof (Qlt_floor r) as Hf. rewrite inject_Z_plus in Hf.
    change (inject_Z 1) with 1 in Hf. lra.
Qed.

End RangeFacts.

Section RangeTheorems.
Import Resampler.
Local Open Scope Q_scope.



(** X9.  The linear-interpolation resampler stays within the range of its
    input: entered with a residue that is not negative, on samples that
    all lie between [lo] and [hi], a call returns and every sample it
    produces lies between [lo] and [hi].  It never reads outside the
    frame and never overshoots. *)
Theorem process_linear_within_range
        (inputSampleRate targetSampleRate : Z) (channelData : list Q) (r lo hi : Q) :
  (0 < inputSampleRate)%Z -> (0 < targetSampleRate)%Z ->
  0 <= r ->
  Forall (fun x => lo <= x <= hi) channelData ->
  exists out r',
    process_linear inputSampleRate targetSampleRate channelData r = Some (out, r') /\
    Forall (fun y => lo <= y <= hi) out.
Proof.
  intros Hi Ho H0 HB.
  pose proof (rate_ratio_pos _ _ Hi Ho) as Hpos.
  rewrite (process_linear_closed _ _ channelData r Hi Ho).
  set (ratio := inject_Z inputSampleRate / inject_Z targetSampleRate) in *.
  eexists _, _. split; [reflexivity|].
  assert (G : forall n r0, 0 <= r0 ->
            (n <= passes (Z.of_nat (length channelData)) ratio r0)%nat ->
            Forall (fun y => lo <= y <= hi) (outputs_from ratio channelData r0 n)).
  { induction n as [|n IH]; intros r0 Hr0 Hn; [constructor|].
    assert (Hlt : r0 < inject_Z (Z.of_nat (length channelData))).
    { apply (passes_spec ratio Hpos _ r0 0). lia. }
    rewrite (passes_step ratio Hpos _ _ Hlt) in Hn.
    cbn [outputs_from]. constructor.
    - apply interpolate_within; assumption.
    - apply IH; [lra | lia]. }
  apply G; [exact H0 | apply Nat.le_refl].
Qed.

Lemma process_linear_within_range_witness :
  exists out r',
    process_linear 48000 16000 [1 # 2; -1 # 4; 1; -1; 0] (1 # 3) = Some (out, r') /\
    Forall (fun y => -1 <= y <= 1) out.
Proof.
  apply (process_linear_within_range 48000 16000 _ (1 # 3) (-1) 1);
    [reflexivity | reflexivity | discriminate |].
  repeat constructor; discriminate.
Defined.

End RangeTheorems.

(** ** The PCM bytes on the wire *)

Section WireFacts.
Import JS Codec Wire.

Definition is_byte (b : Z) : Prop := 0 <= b < 256.

Lemma binary_loop_spec bytes :
  forall binary, binary_loop bytes binary = binary ++ bytes.
Proof.
  induction bytes as [|b rest IH]; intros binary; cbn [binary_loop].
  - rewrite app_nil_r. reflexivity.
  - rewrite IH, <- app_assoc. reflexivity.
Qed.

Lemma bytes_of_int16_bytes x : Forall is_byte (bytes_of_int16 x).
Proof.
  unfold bytes_of_int16, is_byte.
  repeat constructor; apply Z.mod_pos_bound; lia.
Qed.

Lemma Uint8Array_of_buffer_bytes int16Data :
  Forall is_byte (Uint8Array_of_buffer int16Data).
Proof.
  induction int16Data as [|x rest IH]; [constructor|].
  unfold Uint8Array_of_buffer. cbn [flat_map].
  apply Forall_app. split; [apply bytes_of_int16_bytes | exact IH].
Qed.

Lemma btoa_accepts_bytes binary : Forall is_byte binary -> btoa_accepts binary = true.
Proof.
  intros H. unfold btoa_accepts. apply forallb_forall. intros c Hc.
  rewrite Forall_forall in H. specialize (H c Hc). unfold is_byte in H.
  apply andb_true_intro. split; [apply Z.leb_le | apply Z.ltb_lt]; lia.
Qed.

(** The element read back from the two bytes of an element. *)
Lemma int16_of_bytes x :
  int16_range x ->
  let u := x mod 256 + 256 * ((x / 256) mod 256) in
  (if 32768 <=? u then u - 65536 else u) = x.
Proof.
  intros Hx u. unfold int16_range in Hx.
  assert (Hu : u = x mod 65536).
  { unfold u. change 65536 with (256 * 256).
    rewrite Z.rem_mul_r by lia. reflexivity. }
  rewrite Hu. destruct (Z_lt_le_dec x 0) as [Hn|Hp].
  - assert (E : x mod 65536 = x + 65536).
    { symmetry. apply (Z.mod_unique x 65536 (-1)); lia. }
    rewrite E. destruct (32768 <=? x + 65536) eqn:C; [lia|].
    apply Z.leb_gt in C. lia.
  - rewrite Z.mod_small by lia.
    destruct (32768 <=? x) eqn:C; [apply Z.leb_le in C; lia | reflexivity].
Qed.

Lemma Int16Array_of_Uint8Array int16Data :
  Forall int16_range int16Data ->
  Int16Array_of_bytes (Uint8Array_of_buffer int16Data) = Some int16Data.
Proof.
  induction 1 as [|x rest Hx _ IH]; [reflexivity|].
  unfold Uint8Array_of_buffer. cbn [flat_map bytes_of_int16 app].
  cbn [Int16Array_of_bytes]. fold (Uint8Array_of_buffer rest).
  rewrite IH. cbn [option_map]. rewrite (int16_of_bytes x Hx). reflexivity.
Qed.

Lemma Uint8Array_of_buffer_length int16Data :
  length (Uint8Array_of_buffer int16Data) = (2 * length int16Data)%nat.
Proof.
  induction int16Data as [|x rest IH]; [reflexivity|].
  unfold Uint8Array_of_buffer in *. cbn [flat_map bytes_of_int16 app length].
  rewrite IH. lia.
Qed.

Lemma ToInt16_range x : int16_range (ToInt16 x).
Proof.
  unfold ToInt16, int16_range.
  pose proof (Z.mod_pos_bound (truncate x) 65536 eq_refl) as H.
  destruct (32768 <=? truncate x mod 65536) eqn:C.
  - apply Z.leb_le in C. lia.
  - apply Z.leb_gt in C. lia.
Qed.

Lemma sample_to_int16_range v : int16_range (sample_to_int16 v).
Proof. apply ToInt16_range. Qed.

(** The forward loop of [onaudioprocess] is the element-wise conversion. *)
Lemma pcm_loop_spec inputData :
  forall n i pcmData,
    (i + n = length inputData)%nat -> length pcmData = length inputData ->
    pcm_loop n i inputData pcmData
    = firstn i pcmData ++ map sample_to_int16 (skipn i inputData).
Proof.
  induction n as [|n IH]; intros i pcmData Hn Hlen.
  - cbn [pcm_loop]. rewrite skipn_all2 by lia.
    rewrite firstn_all2 by lia. rewrite app_nil_r. reflexivity.
  - cbn [pcm_loop].
    destruct (i <? length inputData)%nat eqn:E; [|apply Nat.ltb_ge in E; lia].
    rewrite IH by (rewrite ?store_length; lia).
    rewrite firstn_store_next by lia.
    rewrite (skipn_cons_nth inputData i nan) by lia.
    cbn [map]. rewrite <- app_assoc. reflexivity.
Qed.

Lemma pcm_loop_map inputData :
  pcm_loop (length inputData) 0 inputData (repeat 0 (length inputData))
  = convertFloat32ToInt16 inputData.
Proof.
  rewrite pcm_loop_spec by (rewrite ?repeat_length; lia).
  rewrite convertFloat32ToInt16_map. reflexivity.
Qed.

(** X10.  The bytes the worklet's chunks are sent as decode to the same
    chunk.  For 16-bit samples, the string built from
    [new Uint8Array(int16Data.buffer)] has two char codes a sample, all
    below 256 (so [btoa] accepts it), and [new Int16Array(bytes.buffer)]
    on the receiving side of [base64ToFloat32] reads the samples back. *)
Theorem audio_data_bytes_round_trip (int16Data : list Z) :
  Forall int16_range int16Data ->
  let binary := audio_data_binary int16Data in
  btoa_accepts binary = true /\
  length binary = (2 * length int16Data)%nat /\
  Int16Array_of_bytes binary = Some int16Data.
Proof.
  intros H binary. unfold binary, audio_data_binary.
  rewrite binary_loop_spec. cbn [app].
  split; [apply btoa_accepts_bytes, Uint8Array_of_buffer_bytes|].
  split; [apply Uint8Array_of_buffer_length | apply Int16Array_of_Uint8Array, H].
Qed.

Lemma audio_data_bytes_round_trip_witness :
  Int16Array_of_bytes (audio_data_binary [-32768; -1; 0; 255; 256; 32767])
  = Some [-32768; -1; 0; 255; 256; 32767].
Proof.
  apply (audio_data_bytes_round_trip [-32768; -1; 0; 255; 256; 32767]).
  repeat constructor; unfold int16_range; lia.
Defined.

(** X11.  [onaudioprocess] of [useAudioRecorder] sends what
    [convertFloat32ToInt16] gives: for every frame, whatever its samples
    (NaN and infinities included), the string it builds is accepted by
    [btoa], and decodes to the 16-bit samples [convertFloat32ToInt16]
    computes from the frame. *)
Theorem onaudioprocess_sends_converted (inputData : list float) :
  btoa_accepts (onaudioprocess inputData) = true /\
  length (onaudioprocess inputData) = (2 * length inputData)%nat /\
  Int16Array_of_bytes (onaudioprocess inputData)
  = Some (convertFloat32ToInt16 inputData).
Proof.
  unfold onaudioprocess. rewrite pcm_loop_map, binary_loop_spec. cbn [app].
  split; [apply btoa_accepts_bytes, Uint8Array_of_buffer_bytes|].
  split.
  - rewrite Uint8Array_of_buffer_length, convertFloat32ToInt16_map, length_map.
    reflexivity.
  - apply Int16Array_of_Uint8Array. rewrite convertFloat32ToInt16_map.
    apply Forall_forall. intros x Hx. apply in_map_iff in Hx.
    destruct Hx as (v & <- & _). apply sample_to_int16_range.
Qed.

Lemma onaudioprocess_sends_converted_witness :
  Int16Array_of_bytes (onaudioprocess [0.5; -1; nan; 2]%float)
  = Some (convertFloat32ToInt16 [0.5; -1; nan; 2]%float).
Proof.
  exact (proj2 (proj2 (onaudioprocess_sends_converted [0.5; -1; nan; 2]%float))).
Defined.

End WireFacts.

(** ** The decoder of [base64ToFloat32] *)

Section DecoderFacts.
Import JS Codec Wire.

Lemma scaled_value v z :
  scaled v = Some z ->
  is_finite v = true /\ (to_Q v == inject_Z z / inject_Z (2 ^ 80))%Q.
Proof.
  unfold scaled, is_finite, to_Q. destruct (Prim2SF v) as [s| | |s m e]; try discriminate.
  - intros H. injection H as <-. split; [reflexivity|]. reflexivity.
  - destruct (0 <=? e + 80) eqn:E; [|discriminate]. apply Z.leb_le in E.
    intros H. injection H as <-. split; [reflexivity|].
    assert (H2 : (inject_Z (2 ^ 80) == 2 ^ 80)%Q) by reflexivity.
    assert (Hp : (2 ^ (e + 80) == 2 ^ e * 2 ^ 80)%Q)
      by (apply Qpower_plus; discriminate).
    assert (Hs : (inject_Z (Z.shiftl (Z.pos m) (e + 80))
                  == inject_Z (Z.pos m) * 2 ^ (e + 80))%Q).
    { rewrite Z.shiftl_mul_pow2 by exact E. rewrite inject_Z_mult.
      apply Qmult_comp; [reflexivity|].
      rewrite (Zpower_Qpower 2 (e + 80) E). reflexivity. }
    assert (Hk : (0 < 2 ^ 80)%Q) by reflexivity.
    apply Qeq_sym. rewrite H2.
    destruct s; cbn [cond_Zopp]; rewrite ?inject_Z_opp, Hs, Hp;
      try (change (Z.neg m) with (- Z.pos m); rewrite inject_Z_opp);
      set (k := (2 ^ 80)%Q) in *; set (p := (2 ^ e)%Q); clearbody k p;
      field; intro H0; rewrite H0 in Hk; discriminate.
Qed.

Lemma decoder_check_sound n :
  forall x0 prev,
    decoder_check n x0 prev = true ->
    forall x, x0 <= x < x0 + Z.of_nat n ->
    exists z, scaled (int16ToFloat x) = Some z /\ prev < z <= 2 ^ 80 /\
      forall y, x < y < x0 + Z.of_nat n ->
      exists z', scaled (int16ToFloat y) = Some z' /\ z < z'.
Proof.
  induction n as [|n IH]; intros x0 prev Hc x Hx; [lia|].
  cbn [decoder_check] in Hc.
  destruct (scaled (int16ToFloat x0)) as [z0|] eqn:E0; [|discriminate].
  apply andb_prop in Hc as [Hc Hrest]. apply andb_prop in Hc as [Hlt Hle].
  apply Z.ltb_lt in Hlt. apply Z.leb_le in Hle.
  destruct (Z.eq_dec x x0) as [->|Hne].
  - exists z0. split; [exact E0|]. split; [lia|].
    intros y Hy. destruct (IH (x0 + 1) z0 Hrest y ltac:(lia)) as (z' & E' & B & _).
    exists z'. split; [exact E' | lia].
  - destruct (IH (x0 + 1) z0 Hrest x ltac:(lia)) as (z & E & B & Hafter).
    exists z. split; [exact E|]. split; [lia|].
    intros y Hy. apply Hafter. lia.
Qed.

(** Every one of the 65536 samples, evaluated. *)
Lemma decoder_check_all :
  decoder_check (Z.to_nat 65536) (-32768) (- 2 ^ 80 - 1) = true.
Proof. vm_compute. reflexivity. Qed.

Lemma scaled_order u v zu zv :
  scaled u = Some zu -> scaled v = Some zv -> zu < zv -> (to_Q u < to_Q v)%Q.
Proof.
  intros Hu Hv Hlt.
  destruct (scaled_value u zu Hu) as [_ Eu]. destruct (scaled_value v zv Hv) as [_ Ev].
  rewrite Eu, Ev. apply Qmult_lt_compat_r; [reflexivity|].
  rewrite <- Zlt_Qlt. exact Hlt.
Qed.

Lemma int16ToFloat_unit x :
  int16_range x ->
  is_finite (int16ToFloat x) = true /\
  (-1 <= to_Q (int16ToFloat x) /\ to_Q (int16ToFloat x) <= 1)%Q.
Proof.
  intros Hx. unfold int16_range in Hx.
  destruct (decoder_check_sound _ _ _ decoder_check_all x) as (z & E & B & _);
    [rewrite Z2Nat.id; lia|].
  destruct (scaled_value _ z E) as [Hf Hv]. split; [exact Hf|].
  rewrite Hv. split.
  - apply Qle_shift_div_l; [reflexivity|].
    change (-1 * inject_Z (2 ^ 80))%Q with (inject_Z (- 2 ^ 80)).
    rewrite <- Zle_Qle. lia.
  - apply Qle_shift_div_r; [reflexivity|].
    change (1 * inject_Z (2 ^ 80))%Q with (inject_Z (2 ^ 80)).
    rewrite <- Zle_Qle. lia.
Qed.

Lemma is_byte_pair lo hi :
  is_byte lo -> is_byte hi ->
  int16_range (let u := lo + 256 * hi in if 32768 <=? u then u - 65536 else u).
Proof.
  unfold is_byte, int16_range. intros Hl Hh. cbv zeta.
  destruct (32768 <=? lo + 256 * hi) eqn:C.
  - apply Z.leb_le in C. lia.
  - apply Z.leb_gt in C. lia.
Qed.

(** Pairs of bytes are read as 16-bit samples, as many as there are
    pairs; a byte left over is an error. *)
Lemma Int16Array_of_bytes_spec :
  forall n bytes,
    (length bytes <= n)%nat ->
    Forall is_byte bytes ->
    if Nat.even (length bytes)
    then exists int16Array,
        Int16Array_of_bytes bytes = Some int16Array /\
        (2 * length int16Array = length bytes)%nat /\
        Forall int16_range int16Array
    else Int16Array_of_bytes bytes = None.
Proof.
  induction n as [|n IH]; intros bytes Hn Hb.
  - destruct bytes; [|simpl in Hn; lia].
    exists []. repeat split. constructor.
  - destruct bytes as [|lo [|hi rest]].
    + exists []. repeat split. constructor.
    + reflexivity.
    + apply Forall_cons_iff in Hb. destruct Hb as [Hlo Hb].
      apply Forall_cons_iff in Hb. destruct Hb as [Hhi Hb].
      cbn [length] in Hn.
      specialize (IH rest ltac:(lia) Hb).
      cbn [length Nat.even Int16Array_of_bytes].
      destruct (Nat.even (length rest)).
      * destruct IH as (xs & E & L & R). rewrite E. cbn [option_map].
        eexists. split; [reflexivity|]. split; [cbn [length]; lia|].
        constructor; [apply (is_byte_pair lo hi Hlo Hhi) | exact R].
      * rewrite IH. reflexivity.
Qed.

(** X12.  [base64ToFloat32] on the char codes of a decoded string (all
    below 256): on an even number of bytes it returns one sample for each
    pair of bytes, and every sample is a finite number between -1 and 1;
    on an odd number of bytes it throws ([new Int16Array] refuses the
    buffer). *)
Theorem base64ToFloat32_unit_samples (binaryString : list Z) :
  Forall is_byte binaryString ->
  if Nat.even (length binaryString)
  then exists float32Array,
      base64ToFloat32 binaryString = Some float32Array /\
      (2 * length float32Array = length binaryString)%nat /\
      Forall (fun v => is_finite v = true /\ (-1 <= to_Q v /\ to_Q v <= 1)%Q)
             float32Array
  else base64ToFloat32 binaryString = None.
Proof.
  intros Hb. unfold base64ToFloat32.
  pose proof (Int16Array_of_bytes_spec _ binaryString (Nat.le_refl _) Hb) as H.
  destruct (Nat.even (length binaryString)).
  - destruct H as (xs & E & L & R). rewrite E. cbn [option_map].
    eexists. split; [reflexivity|]. split; [rewrite length_map; exact L|].
    apply Forall_forall. intros v Hv. apply in_map_iff in Hv.
    destruct Hv as (x & <- & Hx). apply int16ToFloat_unit.
    rewrite Forall_forall in R. apply R, Hx.
  - rewrite H. reflexivity.
Qed.

Lemma base64ToFloat32_unit_samples_witness :
  base64ToFloat32 [0; 128; 255; 127; 1] = None /\
  exists float32Array, base64ToFloat32 [0; 128; 255; 127] = Some float32Array.
Proof.
  split.
  - apply (base64ToFloat32_unit_samples [0; 128; 255; 127; 1]).
    repeat constructor; unfold is_byte; lia.
  - destruct (base64ToFloat32_unit_samples [0; 128; 255; 127]) as (out & E & _).
    + repeat constructor; unfold is_byte; lia.
    + exists out. exact E.
Defined.

(** X13.  The decoder keeps the order of the samples: of two 16-bit
    samples, the smaller one decodes to the smaller number; so distinct
    samples decode to distinct numbers, although the negative and the
    positive half are scaled differently. *)
Theorem int16ToFloat_increasing (x y : Z) :
  int16_range x -> int16_range y -> x < y ->
  (to_Q (int16ToFloat x) < to_Q (int16ToFloat y))%Q.
Proof.
  intros Hx Hy Hlt. unfold int16_range in Hx, Hy.
  destruct (decoder_check_sound _ _ _ decoder_check_all x) as (z & E & _ & Hafter);
    [rewrite Z2Nat.id; lia|].
  destruct (Hafter y) as (z' & E' & Hz); [rewrite Z2Nat.id; lia|].
  exact (scaled_order _ _ z z' E E' Hz).
Qed.

Lemma int16ToFloat_increasing_witness :
  (to_Q (int16ToFloat (-1)) < to_Q (int16ToFloat 0))%Q.
Proof.
  apply (int16ToFloat_increasing (-1) 0); unfold int16_range; lia.
Defined.

End DecoderFacts.

(** ** The handlers of the voice client *)

Section ClientFacts.
Import Playback Client.
Local Open Scope Q_scope.

(** What a handler does to the nodes and to the schedule: it keeps the
    schedule and drops tracked nodes, or stops the tracked nodes, or
    starts one node. *)
Inductive transition (st st' : VoiceClient) : Prop :=
| keeps (g : nat -> bool) :
    started st' = started st ->
    nextStartTimeRef st' = nextStartTimeRef st ->
    activeSourceNodesRef st'
    = filter (fun s => g (node_id s)) (activeSourceNodesRef st) ->
    stopped st' = stopped st ->
    created st' = created st ->
    transition st st'
| stops :
    started st' = started st ->
    activeSourceNodesRef st' = [] ->
    stopped st' = stopped st ++ activeSourceNodesRef st ->
    created st' = created st ->
    transition st st'
| plays (source : SourceNode) (start : Q) :
    nextStartTimeRef st <= start ->
    0 <= node_duration source ->
    node_id source = created st ->
    started st' = started st ++ [(source, start)] ->
    nextStartTimeRef st' = start + node_duration source ->
    activeSourceNodesRef st' = activeSourceNodesRef st ++ [source] ->
    stopped st' = stopped st ->
    created st' = S (created st) ->
    transition st st'.

Lemma keeps_all st st' :
  started st' = started st ->
  nextStartTimeRef st' = nextStartTimeRef st ->
  activeSourceNodesRef st' = activeSourceNodesRef st ->
  stopped st' = stopped st ->
  created st' = created st ->
  transition st st'.
Proof.
  intros H1 H2 H3 H4 H5. apply (keeps st st' (fun _ => true)); try assumption.
  rewrite H3. symmetry. apply filter_true.
Qed.

Lemma buffer_duration_nonneg data sampleRate :
  (0 < sampleRate)%Z -> 0 <= buffer_duration data sampleRate.
Proof.
  intros H. unfold buffer_duration.
  apply Qle_shift_div_l.
  - change 0 with (inject_Z 0). rewrite <- Zlt_Qlt. exact H.
  - rewrite Qmult_0_l. change 0 with (inject_Z 0). rewrite <- Zle_Qle. lia.
Qed.

Lemma playAudio_transition data st : transition st (playAudio data st).
Proof.
  unfold playAudio. destruct (audioContextRef st) as [ctx|];
    [|apply keeps_all; reflexivity].
  destruct data as [|a data]; [apply keeps_all; reflexivity|].
  apply (plays _ _
           {| node_id := created st;
              node_duration := buffer_duration (a :: data) RECEIVE_SAMPLE_RATE |}
           (if Qltb (nextStartTimeRef st) (currentTime ctx)
            then currentTime ctx else nextStartTimeRef st));
    cbn [started nextStartTimeRef activeSourceNodesRef stopped created node_id
         node_duration];
    try reflexivity.
  - destruct (Qltb (nextStartTimeRef st) (currentTime ctx)) eqn:E.
    + apply Qltb_lt in E. apply Qlt_le_weak, E.
    + apply Qle_refl.
  - apply buffer_duration_nonneg. reflexivity.
Qed.

Lemma transition_flags st st' f b :
  transition st st' ->
  transition (setSpeakingState f (set_responding b st)) st'.
Proof.
  intros [g H1 H2 H3 H4 H5 | H1 H2 H3 H4 | source start H1 H2 H3 H4 H5 H6 H7 H8].
  - apply (keeps _ _ g); assumption.
  - apply stops; assumption.
  - apply (plays _ _ source start); assumption.
Qed.

Lemma handle_transition e st : transition st (handle e st).
Proof.
  destruct e as [binaryString| | |source| |now]; cbn [handle].
  - unfold on_audio. cbn [audioContextRef setSpeakingState set_responding].
    destruct (audioContextRef st) as [ctx|] eqn:Hctx;
      [|apply keeps_all; reflexivity].
    destruct (Codec.base64ToFloat32 binaryString) as [float32Data|];
      [|apply keeps_all; reflexivity].
    pose proof (playAudio_transition float32Data
                  (setSpeakingState (fun _ => speaking) (set_responding true st))) as T.
    destruct T as [g H1 H2 H3 H4 H5 | H1 H2 H3 H4 | s t H1 H2 H3 H4 H5 H6 H7 H8].
    + apply (keeps _ _ g); assumption.
    + apply stops; assumption.
    + apply (plays _ _ s t); assumption.
  - unfold on_turn_complete. destruct (isAIRespondingRef st);
      apply keeps_all; reflexivity.
  - unfold on_vad_signal. destruct (isAIRespondingRef st).
    + apply stops; reflexivity.
    + apply keeps_all; reflexivity.
  - apply (keeps _ _ (fun i => negb (Nat.eqb i (node_id source))));
      unfold on_ended; cbn [audioContextRef set_active];
      destruct (audioContextRef st) as [ctx|];
      try destruct (Qle_bool _ _); reflexivity.
  - apply keeps_all; reflexivity.
  - apply keeps_all; reflexivity.
Qed.

(* ---------------------------------------------------------------- *)
(** *** The nodes *)

(** The books of the nodes are in order: the nodes started are numbered
    in the order of their creation; the tracked and the stopped nodes
    have been started; no node is tracked or stopped twice, or both. *)
Definition books (st : VoiceClient) : Prop :=
  map (fun p => node_id (fst p)) (started st) = seq 0 (created st) /\
  (forall s, In s (activeSourceNodesRef st) -> exists t, In (s, t) (started st)) /\
  (forall s, In s (stopped st) -> exists t, In (s, t) (started st)) /\
  NoDup (map node_id (activeSourceNodesRef st)) /\
  NoDup (map node_id (stopped st)) /\
  (forall s, In s (activeSourceNodesRef st) ->
             ~ In (node_id s) (map node_id (stopped st))).

Lemma started_id_below st s t :
  map (fun p => node_id (fst p)) (started st) = seq 0 (created st) ->
  In (s, t) (started st) -> (node_id s < created st)%nat.
Proof.
  intros H Hin.
  assert (Hi : In (node_id s) (seq 0 (created st))).
  { rewrite <- H. apply in_map_iff. exists (s, t). auto. }
  apply in_seq in Hi. lia.
Qed.

Lemma books_transition st st' : transition st st' -> books st -> books st'.
Proof.
  intros T (B1 & B2 & B3 & B4 & B5 & B6).
  destruct T as [g H1 H2 H3 H4 H5 | H1 H2 H3 H4 | source start H1 H2 H3 H4 H5 H6 H7 H8];
    unfold books.
  - rewrite H1, H3, H4, H5.
    split; [exact B1|]. split; [|split; [exact B3|split; [|split; [exact B5|]]]].
    + intros s Hs. apply filter_In in Hs. apply B2, Hs.
    + rewrite <- filter_map_swap. apply NoDup_filter, B4.
    + intros s Hs. apply filter_In in Hs. apply B6, Hs.
  - rewrite H1, H2, H3, H4.
    split; [exact B1|]. split; [intros s []|]. split; [|split; [constructor|split]].
    + intros s Hs. apply in_app_or in Hs. destruct Hs; [apply B3 | apply B2]; assumption.
    + rewrite map_app. apply NoDup_app; [exact B5 | exact B4 |].
      intros i Hi Hi'. apply in_map_iff in Hi'. destruct Hi' as (s & <- & Hs).
      exact (B6 s Hs Hi).
    + intros s [].
  - assert (Hold : forall s, (exists t, In (s, t) (started st)) ->
                             node_id s <> node_id source).
    { intros s [t Hs]. pose proof (started_id_below st s t B1 Hs). lia. }
    rewrite H4, H6, H7, H8.
    split; [|split; [|split; [|split; [|split; [exact B5|]]]]].
    + rewrite map_app, B1, seq_S. cbn [map fst plus]. rewrite H3. reflexivity.
    + intros s Hs. apply in_app_or in Hs. destruct Hs as [Hs|[<-|[]]].
      * destruct (B2 s Hs) as [t Ht]. exists t. apply in_or_app. left. exact Ht.
      * exists start. apply in_or_app. right. left. reflexivity.
    + intros s Hs. destruct (B3 s Hs) as [t Ht]. exists t.
      apply in_or_app. left. exact Ht.
    + rewrite map_app. apply NoDup_app; [exact B4 | repeat constructor; intros [] |].
      intros i Hi [<-|[]]. apply in_map_iff in Hi. destruct Hi as (s & E & Hs).
      exact (Hold s (B2 s Hs) E).
    + intros s Hs Hin. apply in_app_or in Hs. destruct Hs as [Hs|[<-|[]]].
      * exact (B6 s Hs Hin).
      * apply in_map_iff in Hin. destruct Hin as (s & E & Hs).
        exact (Hold s (B3 s Hs) E).
Qed.

Lemma books_fresh now : books (fresh now).
Proof.
  unfold books, fresh; cbn.
  split; [reflexivity|]. split; [intros s []|]. split; [intros s []|].
  split; [constructor|]. split; [constructor|]. intros s [].
Qed.

Lemma handle_all_invariant (P : VoiceClient -> Prop) :
  (forall st st', transition st st' -> P st -> P st') ->
  forall events st, P st -> P (handle_all events st).
Proof.
  intros Hstep. induction events as [|e events IH]; intros st H; [exact H|].
  cbn [handle_all fold_left]. apply IH. apply (Hstep st); [apply handle_transition | exact H].
Qed.

(** Every node that was started is tracked, or was stopped, or had its
    [onended] callback run. *)
Definition accounted (past : list event) (st : VoiceClient) : Prop :=
  forall s t,
    In (s, t) (started st) ->
    In s (activeSourceNodesRef st) \/ In s (stopped st) \/
    exists source, In (ended source) past /\ node_id source = node_id s.

Lemma accounted_later past e st st' :
  accounted past st ->
  started st' = started st ->
  (forall s, In s (activeSourceNodesRef st) ->
             In s (activeSourceNodesRef st') \/ In s (stopped st') \/
             exists source, In (ended source) (past ++ [e]) /\
                            node_id source = node_id s) ->
  (forall s, In s (stopped st) -> In s (stopped st')) ->
  accounted (past ++ [e]) st'.
Proof.
  intros H Hs Ha Hst s t Hin. rewrite Hs in Hin.
  destruct (H s t Hin) as [Hact | [Hstop | (source & Hev & Hid)]].
  - exact (Ha s Hact).
  - right. left. exact (Hst s Hstop).
  - right. right. exists source. split; [apply in_or_app; left; exact Hev | exact Hid].
Qed.

Lemma accounted_playAudio past e data st :
  accounted past st -> accounted (past ++ [e]) (playAudio data st).
Proof.
  intros H. unfold playAudio.
  destruct (audioContextRef st) as [ctx|];
    [|apply (accounted_later past e st st H); auto].
  destruct data as [|a data]; [apply (accounted_later past e st st H); auto|].
  intros s t Hin. cbn [started activeSourceNodesRef stopped] in *.
  apply in_app_or in Hin. destruct Hin as [Hin | [E | []]].
  - destruct (H s t Hin) as [Hact | [Hstop | (source & Hev & Hid)]].
    + left. apply in_or_app. left. exact Hact.
    + right. left. exact Hstop.
    + right. right. exists source.
      split; [apply in_or_app; left; exact Hev | exact Hid].
  - injection E as <- _. left. apply in_or_app. right. left. reflexivity.
Qed.

Lemma accounted_flags past st f b :
  accounted past st -> accounted past (setSpeakingState f (set_responding b st)).
Proof. intros H; exact H. Qed.

Lemma accounted_handle past e st :
  accounted past st -> accounted (past ++ [e]) (handle e st).
Proof.
  intros H. destruct e as [binaryString| | |source| |now]; cbn [handle].
  - unfold on_audio. cbn [audioContextRef setSpeakingState set_responding].
    destruct (audioContextRef st) as [ctx|] eqn:Hctx;
      [|apply (accounted_later past _ st _ H); auto].
    destruct (Codec.base64ToFloat32 binaryString) as [float32Data|];
      [|apply (accounted_later past _ st _ H); auto].
    apply accounted_playAudio, accounted_flags, H.
  - unfold on_turn_complete. destruct (isAIRespondingRef st);
      apply (accounted_later past _ st _ H); auto.
  - unfold on_vad_signal. destruct (isAIRespondingRef st).
    + apply (accounted_later past _ st _ H); cbn [started stopped stopAudioPlayback].
      * reflexivity.
      * intros s Hs. right. left. apply in_or_app. right. exact Hs.
      * intros s Hs. apply in_or_app. left. exact Hs.
    + apply (accounted_later past _ st _ H); auto.
  - assert (Hf : forall st', started st' = started st ->
                 activeSourceNodesRef st'
                 = filter (fun s => negb (same_node s source)) (activeSourceNodesRef st) ->
                 stopped st' = stopped st ->
                 accounted (past ++ [ended source]) st').
    { intros st' H1 H2 H3. apply (accounted_later past _ st st' H H1).
      - intros s Hs. rewrite H2.
        destruct (same_node s source) eqn:E.
        + right. right. exists source.
          split; [apply in_or_app; right; left; reflexivity|].
          unfold same_node in E. apply Nat.eqb_eq in E. symmetry. exact E.
        + left. apply filter_In. split; [exact Hs | rewrite E; reflexivity].
      - intros s Hs. rewrite H3. exact Hs. }
    unfold on_ended. cbn [audioContextRef set_active].
    destruct (audioContextRef st) as [ctx|]; [|apply Hf; reflexivity].
    cbn [nextStartTimeRef]. destruct (Qle_bool _ _); apply Hf; reflexivity.
  - apply (accounted_later past _ st _ H); auto.
  - apply (accounted_later past _ st _ H); auto.
Qed.

Lemma accounted_handle_all events :
  forall past st,
    accounted past st -> accounted (past ++ events) (handle_all events st).
Proof.
  induction events as [|e events IH]; intros past st H.
  - rewrite app_nil_r. exact H.
  - cbn [handle_all fold_left].
    replace (past ++ e :: events) with ((past ++ [e]) ++ events)
      by (rewrite <- app_assoc; reflexivity).
    apply IH, accounted_handle, H.
Qed.

(** X14.  The books of the nodes stay in order.  After any sequence of
    events (audio messages, turn ends, VAD signals, [onended] callbacks
    for any node, timers, clock readings) from the fresh client: the
    nodes started carry the numbers 0, 1, 2, ... in order; every tracked
    node and every stopped node has been started; no node is tracked
    twice; [stop()] is called at most once on a node; no node that was
    stopped is still tracked; and a node that was started is still
    tracked unless [stopAudioPlayback] stopped it or an [onended]
    callback of that node has run. *)
Theorem nodes_stopped_at_most_once (events : list event) (now : Q) :
  let st := handle_all events (fresh now) in
  map (fun p => node_id (fst p)) (started st) = seq 0 (created st) /\
  (forall s, In s (activeSourceNodesRef st) -> exists t, In (s, t) (started st)) /\
  (forall s, In s (stopped st) -> exists t, In (s, t) (started st)) /\
  NoDup (map node_id (activeSourceNodesRef st)) /\
  NoDup (map node_id (stopped st)) /\
  (forall s, In s (activeSourceNodesRef st) ->
             ~ In (node_id s) (map node_id (stopped st))) /\
  (forall s t, In (s, t) (started st) ->
               In s (activeSourceNodesRef st) \/ In s (stopped st) \/
               exists source, In (ended source) events /\
                              node_id source = node_id s).
Proof.
  intros st.
  destruct (handle_all_invariant books books_transition events (fresh now)
              (books_fresh now)) as (B1 & B2 & B3 & B4 & B5 & B6).
  fold st in B1, B2, B3, B4, B5, B6.
  split; [exact B1|]. split; [exact B2|]. split; [exact B3|].
  split; [exact B4|]. split; [exact B5|]. split; [exact B6|].
  assert (H0 : accounted [] (fresh now)) by (intros s t []).
  exact (accounted_handle_all events [] (fresh now) H0).
Qed.

Lemma nodes_stopped_at_most_once_witness :
  NoDup (map node_id
             (stopped (handle_all [audio [0; 0]%Z; vad_signal; audio [1; 0]%Z;
                                   ended {| node_id := 0; node_duration := 1 |};
                                   vad_signal]
                                  (fresh 1)))).
Proof.
  exact (proj1 (proj2 (proj2 (proj2 (proj2
           (nodes_stopped_at_most_once
              [audio [0; 0]%Z; vad_signal; audio [1; 0]%Z;
               ended {| node_id := 0; node_duration := 1 |}; vad_signal] 1)))))).
Defined.

(* ---------------------------------------------------------------- *)
(** *** The schedule *)

(** Every tracked node ends by [nextStartTimeRef], and before every node
    started after it. *)
Definition in_sequence (st : VoiceClient) : Prop :=
  (forall s t, In (s, t) (started st) -> (node_id s < created st)%nat) /\
  (forall s t, In (s, t) (started st) -> In s (activeSourceNodesRef st) ->
               t + node_duration s <= nextStartTimeRef st) /\
  (forall i j s1 t1 s2 t2,
      (i < j)%nat ->
      nth_error (started st) i = Some (s1, t1) ->
      nth_error (started st) j = Some (s2, t2) ->
      In s1 (activeSourceNodesRef st) ->
      t1 + node_duration s1 <= t2).

Lemma in_sequence_transition st st' :
  transition st st' -> in_sequence st -> in_sequence st'.
Proof.
  intros T (S1 & S2 & S3).
  destruct T as [g H1 H2 H3 H4 H5 | H1 H2 H3 H4 | source start H1 H2 H3 H4 H5 H6 H7 H8];
    unfold in_sequence.
  - rewrite H1, H2, H3, H5. split; [exact S1|]. split.
    + intros s t Hs Ha. apply filter_In in Ha. apply S2; [exact Hs | apply Ha].
    + intros i j s1 t1 s2 t2 Hij Hi Hj Ha. apply filter_In in Ha.
      apply (S3 i j s1 t1 s2 t2 Hij Hi Hj). apply Ha.
  - rewrite H1, H2, H4. split; [exact S1|]. split.
    + intros s t _ [].
    + intros i j s1 t1 s2 t2 _ _ _ [].
  - assert (Hnew : forall s t, In (s, t) (started st) -> s <> source).
    { intros s t Hs ->. pose proof (S1 _ _ Hs). lia. }
    assert (Hact : forall s t, In (s, t) (started st) ->
                               In s (activeSourceNodesRef st ++ [source]) ->
                               In s (activeSourceNodesRef st)).
    { intros s t Hs Ha. apply in_app_or in Ha. destruct Ha as [Ha|[<-|[]]].
      - exact Ha.
      - exfalso. exact (Hnew _ _ Hs eq_refl). }
    rewrite H4, H5, H6, H8. split; [|split].
    + intros s t Hs. apply in_app_or in Hs. destruct Hs as [Hs|[E|[]]].
      * pose proof (S1 _ _ Hs). lia.
      * injection E as <- _. lia.
    + intros s t Hs Ha. apply in_app_or in Hs. destruct Hs as [Hs|[E|[]]].
      * pose proof (S2 s t Hs (Hact s t Hs Ha)). lra.
      * injection E as <- <-. lra.
    + intros i j s1 t1 s2 t2 Hij Hi Hj Ha.
      assert (Hjl : (j < length (started st ++ [(source, start)]))%nat)
        by (apply nth_error_Some; rewrite Hj; discriminate).
      rewrite length_app in Hjl. cbn [length] in Hjl.
      rewrite nth_error_app1 in Hi by lia.
      pose proof (nth_error_In _ _ Hi) as Hin1.
      pose proof (Hact s1 t1 Hin1 Ha) as Ha1.
      destruct (Nat.eq_dec j (length (started st))) as [->|Hne].
      * rewrite nth_error_app2, Nat.sub_diag in Hj by lia.
        injection Hj as <- <-.
        pose proof (S2 s1 t1 Hin1 Ha1). lra.
      * rewrite nth_error_app1 in Hj by lia.
        exact (S3 i j s1 t1 s2 t2 Hij Hi Hj Ha1).
Qed.

Lemma in_sequence_fresh now : in_sequence (fresh now).
Proof.
  unfold in_sequence, fresh; cbn. split; [intros s t []|]. split; [intros s t []|].
  intros i j s1 t1 s2 t2 _ Hi. destruct i; discriminate.
Qed.

(** X15.  The units the client keeps track of never overlap.  After any
    sequence of events from the fresh client, a node that is still
    tracked ends ([start + duration]) no later than any node started
    after it begins, and no later than [nextStartTimeRef], the earliest
    start of the next unit. *)
Theorem tracked_units_never_overlap
        (events : list event) (now : Q) (i j : nat)
        (s1 s2 : SourceNode) (t1 t2 : Q) :
  let st := handle_all events (fresh now) in
  (i < j)%nat ->
  nth_error (started st) i = Some (s1, t1) ->
  nth_error (started st) j = Some (s2, t2) ->
  In s1 (activeSourceNodesRef st) ->
  t1 + node_duration s1 <= t2 /\
  t1 + node_duration s1 <= nextStartTimeRef st.
Proof.
  intros st Hij Hi Hj Ha.
  destruct (handle_all_invariant in_sequence in_sequence_transition events (fresh now)
              (in_sequence_fresh now)) as (_ & S2 & S3).
  fold st in S2, S3. split.
  - exact (S3 i j s1 t1 s2 t2 Hij Hi Hj Ha).
  - exact (S2 s1 t1 (nth_error_In _ _ Hi) Ha).
Qed.

Lemma tracked_units_never_overlap_witness :
  1 + buffer_duration [0%float; 0%float] RECEIVE_SAMPLE_RATE
  <= 1 + buffer_duration [0%float; 0%float] RECEIVE_SAMPLE_RATE.
Proof.
  exact (proj1 (tracked_units_never_overlap
                  [audio [0; 0; 0; 0]%Z; clock (1 # 2); audio [1; 0]%Z] 1 0 1
                  {| node_id := 0;
                     node_duration := buffer_duration [0%float; 0%float] RECEIVE_SAMPLE_RATE |}
                  {| node_id := 1;
                     node_duration := buffer_duration [Codec.int16ToFloat 1] RECEIVE_SAMPLE_RATE |}
                  1 (1 + buffer_duration [0%float; 0%float] RECEIVE_SAMPLE_RATE)
                  (le_n 1) eq_refl eq_refl (or_introl eq_refl))).
Defined.

End ClientFacts.

(** ** The [VoiceChat] component *)

Section ChatFacts.
Import Playback Client.
Local Open Scope Q_scope.

(** Every unit ends by [nextStartTimeRef], and before every unit
    scheduled after it. *)
Definition vc_in_sequence (st : VoiceChat) : Prop :=
  (forall t d, In (t, d) (vc_started st) -> t + d <= vc_nextStartTimeRef st) /\
  (forall i j t1 d1 t2 d2,
      (i < j)%nat ->
      nth_error (vc_started st) i = Some (t1, d1) ->
      nth_error (vc_started st) j = Some (t2, d2) ->
      t1 + d1 <= t2).

Lemma scheduleAudioChunk_in_sequence currentTime float32Data st :
  vc_in_sequence st -> vc_in_sequence (scheduleAudioChunk currentTime float32Data st).
Proof.
  intros (S1 & S2). unfold scheduleAudioChunk.
  destruct float32Data as [|a data]; [split; assumption|].
  set (d := buffer_duration (a :: data) 22000).
  set (start := if Qltb (vc_nextStartTimeRef st) currentTime
                then currentTime + (5 # 100) else vc_nextStartTimeRef st).
  assert (Hd : 0 <= d) by (apply buffer_duration_nonneg; reflexivity).
  assert (Hstart : vc_nextStartTimeRef st <= start).
  { unfold start. destruct (Qltb (vc_nextStartTimeRef st) currentTime) eqn:E.
    - apply Qltb_lt in E. lra.
    - apply Qle_refl. }
  unfold vc_in_sequence. cbn [vc_started vc_nextStartTimeRef]. split.
  - intros t d0 Hin. apply in_app_or in Hin. destruct Hin as [Hin|[E|[]]].
    + pose proof (S1 t d0 Hin). lra.
    + injection E as <- <-. lra.
  - intros i j t1 d1 t2 d2 Hij Hi Hj.
    assert (Hjl : (j < length (vc_started st ++ [(start, d)]))%nat)
      by (apply nth_error_Some; rewrite Hj; discriminate).
    rewrite length_app in Hjl. cbn [length] in Hjl.
    rewrite nth_error_app1 in Hi by lia.
    destruct (Nat.eq_dec j (length (vc_started st))) as [->|Hne].
    + rewrite nth_error_app2, Nat.sub_diag in Hj by lia.
      injection Hj as <- <-.
      pose proof (S1 t1 d1 (nth_error_In _ _ Hi)). lra.
    + rewrite nth_error_app1 in Hj by lia.
      exact (S2 i j t1 d1 t2 d2 Hij Hi Hj).
Qed.

Lemma schedule_all_in_sequence chunks :
  forall st, vc_in_sequence st -> vc_in_sequence (schedule_all chunks st).
Proof.
  induction chunks as [|c chunks IH]; intros st H; [exact H|].
  cbn [schedule_all fold_left]. apply IH, scheduleAudioChunk_in_sequence, H.
Qed.

(** X16.  [scheduleAudioChunk] never lets two units overlap.  However the
    chunks arrive (any clock reading at each, early or late, in any
    order), from a component with nothing scheduled, a unit scheduled
    after another starts no earlier than the other ends. *)
Theorem scheduled_units_never_overlap
        (chunks : list (Q * list float)) (st : VoiceChat) (i j : nat)
        (t1 d1 t2 d2 : Q) :
  vc_started st = [] ->
  let st' := schedule_all chunks st in
  (i < j)%nat ->
  nth_error (vc_started st') i = Some (t1, d1) ->
  nth_error (vc_started st') j = Some (t2, d2) ->
  t1 + d1 <= t2.
Proof.
  intros Hnone st' Hij Hi Hj.
  assert (H0 : vc_in_sequence st).
  { unfold vc_in_sequence. rewrite Hnone. split; [intros t d []|].
    intros i0 j0 ? ? ? ? _ H. destruct i0; discriminate. }
  destruct (schedule_all_in_sequence chunks st H0) as [_ S2].
  exact (S2 i j t1 d1 t2 d2 Hij Hi Hj).
Qed.

Lemma scheduled_units_never_overlap_witness :
  3 + (5 # 100) + buffer_duration [0%float; 0%float] 22000
  <= 3 + (5 # 100) + buffer_duration [0%float; 0%float] 22000.
Proof.
  exact (scheduled_units_never_overlap
           [(3, [0%float; 0%float]); (1, [0.5%float])]
           {| vc_nextStartTimeRef := 0; vc_started := [] |} 0 1
           (3 + (5 # 100)) (buffer_duration [0%float; 0%float] 22000)
           (3 + (5 # 100) + buffer_duration [0%float; 0%float] 22000)
           (buffer_duration [0.5%float] 22000)
           eq_refl (le_n 1) eq_refl eq_refl).
Defined.

(** X17.  Stopping the recording makes the component forget its
    schedule: [toggleRecording] resets [nextStartTimeRef] to 0, so the
    next chunk, at any clock reading above 0, starts at that reading plus
    0.05 whatever is still scheduled, and the units already started stay
    started. *)
Theorem toggleRecording_forgets_schedule
        (st : VoiceChat) (currentTime : Q) (float32Data : list float) :
  0 < currentTime ->
  float32Data <> [] ->
  let st' := scheduleAudioChunk currentTime float32Data (toggleRecording false true st) in
  vc_started st'
  = vc_started st ++ [(currentTime + (5 # 100), buffer_duration float32Data 22000)] /\
  vc_nextStartTimeRef st'
  = currentTime + (5 # 100) + buffer_duration float32Data 22000.
Proof.
  intros Hnow Hdata st'. unfold st', scheduleAudioChunk, toggleRecording.
  destruct float32Data as [|a data]; [congruence|].
  cbn [vc_nextStartTimeRef vc_started].
  assert (E : Qltb 0 currentTime = true).
  { destruct (Qltb 0 currentTime) eqn:E; [reflexivity|]. apply Qltb_ge in E. lra. }
  rewrite E. split; reflexivity.
Qed.

Lemma toggleRecording_forgets_schedule_witness :
  vc_started (scheduleAudioChunk 1 [0.5%float]
                (toggleRecording false true
                   {| vc_nextStartTimeRef := 9; vc_started := [(4, 5)] |}))
  = [(4, 5); (1 + (5 # 100), buffer_duration [0.5%float] 22000)].
Proof.
  exact (proj1 (toggleRecording_forgets_schedule
                  {| vc_nextStartTimeRef := 9; vc_started := [(4, 5)] |} 1 [0.5%float]
                  eq_refl ltac:(discriminate))).
Defined.

(* ---------------------------------------------------------------- *)
(** *** The transcript *)

(** No message repeats the text and the type of the one before it. *)
Definition no_repeat (messages : list Message) : Prop :=
  forall i a b,
    nth_error messages i = Some a ->
    nth_error messages (S i) = Some b ->
    ~ (text a = text b /\ type a = type b).

Definition transcribe_all (events : list (string * string * string))
           (prev : list Message) : list Message :=
  fold_left (fun prev e => on_transcription (fst (fst e)) (snd (fst e)) (snd e) prev)
            events prev.

Lemma MessageType_eqb_eq a b : MessageType_eqb a b = true <-> a = b.
Proof. destruct a, b; cbn; split; intros H; try reflexivity; discriminate. Qed.

Lemma list_last_cases {A : Type} (l : list A) :
  l = [] \/ exists p x, l = p ++ [x].
Proof.
  destruct l as [|a l]; [left; reflexivity|]. right.
  destruct (exists_last (l := a :: l)) as (p & x & E); [discriminate|].
  exists p, x. exact E.
Qed.

Lemma no_repeat_snoc p l m :
  no_repeat (p ++ [l]) ->
  ~ (text l = text m /\ type l = type m) ->
  no_repeat ((p ++ [l]) ++ [m]).
Proof.
  intros H Hne i a b Ha Hb.
  assert (Hlen : (S i < length ((p ++ [l]) ++ [m]))%nat)
    by (apply nth_error_Some; rewrite Hb; discriminate).
  rewrite !length_app in Hlen. cbn [length] in Hlen.
  rewrite nth_error_app1 in Ha by (rewrite length_app; cbn [length]; lia).
  destruct (Nat.eq_dec (S i) (length p + 1)) as [E|E].
  - rewrite nth_error_app2 in Hb by (rewrite length_app; cbn [length]; lia).
    rewrite length_app in Hb. cbn [length] in Hb.
    replace (S i - (length p + 1))%nat with O in Hb by lia.
    injection Hb as <-.
    rewrite nth_error_app2 in Ha by lia.
    replace (i - length p)%nat with O in Ha by lia.
    injection Ha as <-. exact Hne.
  - rewrite nth_error_app1 in Hb by (rewrite length_app; cbn [length]; lia).
    exact (H i a b Ha Hb).
Qed.

Lemma on_transcription_step now data_source data_text prev :
  no_repeat prev ->
  let next := on_transcription now data_source data_text prev in
  no_repeat next /\
  (next = prev \/
   exists m, next = prev ++ [m] /\ text m = data_text /\ data_text <> ""%string /\
             type m <> system).
Proof.
  intros H next. unfold next, on_transcription.
  set (source := if String.eqb data_source "user" then user else assistant).
  assert (Hsrc : source <> system) by (unfold source; destruct (String.eqb _ _); discriminate).
  destruct (String.eqb data_text "") eqn:Et; [split; [exact H | left; reflexivity]|].
  apply String.eqb_neq in Et.
  set (m := {| id := now; type := source; text := data_text |}).
  assert (Hadd : exists m0, prev ++ [m] = prev ++ [m0] /\ text m0 = data_text /\
                            data_text <> ""%string /\ type m0 <> system)
    by (exists m; auto).
  destruct (list_last_cases prev) as [->|(p & l & ->)].
  - cbn [map last app]. split; [|right; exact Hadd].
    intros i a b Ha Hb. destruct i; discriminate.
  - rewrite last_map_snoc.
    destruct (String.eqb (text l) data_text && MessageType_eqb (type l) source) eqn:E.
    + split; [exact H | left; reflexivity].
    + split; [|right; exact Hadd].
      apply no_repeat_snoc; [exact H|]. cbn [text type].
      intros [E1 E2]. apply andb_false_iff in E. destruct E as [E|E].
      * apply String.eqb_neq in E. contradiction.
      * rewrite (proj2 (MessageType_eqb_eq (type l) source) E2) in E. discriminate.
Qed.

(** X18.  The transcript never repeats itself.  Over any sequence of
    [transcription] messages, the list of [handleWebSocketMessage] only
    grows at its end, and, when no message repeated the text and the type
    of the one before it at the start, none does at the end. *)
Theorem transcript_never_repeats
        (events : list (string * string * string)) (prev : list Message) :
  no_repeat prev ->
  let messages := transcribe_all events prev in
  no_repeat messages /\ exists added, messages = prev ++ added /\
    Forall (fun m => text m <> ""%string /\ type m <> system) added.
Proof.
  revert prev; induction events as [|[[now src] txt] events IH]; intros prev H.
  - cbn. split; [exact H|]. exists []. rewrite app_nil_r. split; [reflexivity | constructor].
  - cbn [transcribe_all fold_left fst snd].
    destruct (on_transcription_step now src txt prev H) as [Hn Hc].
    destruct (IH _ Hn) as (Hn' & added & E & F).
    fold (transcribe_all events (on_transcription now src txt prev)).
    cbv zeta. split; [exact Hn'|].
    destruct Hc as [Hc|(m & Hc & Ht & Hne & Hty)].
    + rewrite Hc in E |- *. exists added. split; [exact E | exact F].
    + rewrite Hc in E |- *. rewrite <- app_assoc in E.
      exists ([m] ++ added). split; [exact E|].
      constructor; [|exact F]. rewrite Ht. auto.
Qed.

Lemma transcript_never_repeats_witness :
  transcribe_all [("1", "user", "hello"); ("2", "user", "hello");
                  ("3", "assistant", "hello"); ("4", "assistant", "")]%string []
  = [ {| id := "1"; type := user; text := "hello" |};
      {| id := "3"; type := assistant; text := "hello" |} ]%string /\
  no_repeat (transcribe_all [("1", "user", "hello"); ("2", "user", "hello");
                             ("3", "assistant", "hello"); ("4", "assistant", "")]%string []).
Proof.
  split; [reflexivity|].
  apply (transcript_never_repeats
           [("1", "user", "hello"); ("2", "user", "hello");
            ("3", "assistant", "hello"); ("4", "assistant", "")]%string []).
  intros i a b Ha. destruct i; discriminate.
Defined.

End ChatFacts.

(** ** The session timer *)

Section UIFacts.
Import Ascii UI.
Local Open Scope N_scope.

Lemma formatTime_check_sound n :
  forall s0,
    formatTime_check n s0 = true ->
    forall s, s0 <= s < s0 + N.of_nat n -> readTime (formatTime s) = Some s.
Proof.
  induction n as [|n IH]; intros s0 Hc s Hs; [lia|].
  cbn [formatTime_check] in Hc.
  destruct (readTime (formatTime s0)) as [back|] eqn:E; [|discriminate].
  apply andb_prop in Hc as [Hb Hrest]. apply N.eqb_eq in Hb. subst back.
  destruct (N.eq_dec s s0) as [->|Hne]; [exact E|].
  apply (IH (s0 + 1) Hrest). lia.
Qed.

Lemma formatTime_check_all : formatTime_check (N.to_nat 6000) 0 = true.
Proof. vm_compute. reflexivity. Qed.

Lemma readTime_length s n : readTime s = Some n -> String.length s = 5%nat.
Proof.
  unfold readTime.
  destruct s as [|c1 [|c2 [|c3 [|c4 [|c5 [|c6 s]]]]]]; try discriminate;
    destruct c3 as [[] [] [] [] [] [] [] []]; try discriminate; reflexivity.
Qed.

(** X19.  [formatTime] shows every time below 100 minutes, so every value
    of the 30-minute countdown, as five characters [MM:SS] from which the
    number of seconds is read back; two times below 100 minutes are never
    shown alike. *)
Theorem formatTime_reads_back (seconds : N) :
  seconds < 6000 ->
  readTime (formatTime seconds) = Some seconds /\
  String.length (formatTime seconds) = 5%nat /\
  forall other, other < 6000 -> formatTime other = formatTime seconds ->
                other = seconds.
Proof.
  assert (R : forall s, s < 6000 -> readTime (formatTime s) = Some s).
  { intros s Hs. apply (formatTime_check_sound _ 0 formatTime_check_all).
    rewrite Nnat.N2Nat.id. lia. }
  intros Hs. split; [apply R, Hs|]. split.
  - apply (readTime_length _ seconds), R, Hs.
  - intros other Ho E. pose proof (R other Ho) as Ro. rewrite E, (R seconds Hs) in Ro.
    injection Ro as ->. reflexivity.
Qed.

Lemma formatTime_reads_back_witness :
  formatTime SESSION_DURATION = "30:00"%string /\
  readTime (formatTime SESSION_DURATION) = Some SESSION_DURATION.
Proof.
  split; [reflexivity|].
  apply (formatTime_reads_back SESSION_DURATION). reflexivity.
Defined.

End UIFacts.

(** ** Capture processor: silence *)

Section SilenceFacts.
Import JS Capture.

(** A sample of silence: one of the two zeros. *)
Definition silent (x : float) : Prop := x = 0%float \/ x = (-0)%float.

Lemma sum_squares_silent channelData :
  Forall silent channelData ->
  fold_left (fun sum x => (sum + x * x)%float) channelData 0%float = 0%float.
Proof.
  induction 1 as [|x l Hx _ IH]; [reflexivity|].
  cbn [fold_left]. destruct Hx as [-> | ->]; exact IH.
Qed.

(** The length of a frame, as a number, is finite and positive. *)
Lemma of_int_finite (n : Z) :
  0 < n < 2 ^ 53 ->
  exists M E, Prim2SF (of_int n) = S754_finite false M E.
Proof.
  intros Hn. destruct n as [|p|p]; try lia.
  unfold of_int. rewrite FloatAxioms.of_uint63_spec, Uint63.of_Z_spec.
  rewrite Z.mod_small by (change wB with (2 ^ 63); lia).
  cbn [binary_normalize].
  assert (Hd : Z.pos (Pos.size p) <= 53).
  { destruct (Z_le_gt_dec (Z.pos (Pos.size p)) 53) as [H|H]; [exact H|].
    exfalso. pose proof (size_bounds p) as [Hlo _].
    assert (2 ^ 53 <= 2 ^ (Z.pos (Pos.size p) - 1))
      by (apply Z.pow_le_mono_r; lia).
    lia. }
  destruct (binary_round_small false p 0) as (M & _ & _ & Hr); [exact Hd | lia |].
  exists M, (0 + Z.pos (Pos.size p) - 53). exact Hr.
Qed.

Lemma frame_rms_silent channelData :
  Forall silent channelData ->
  0 < Z.of_nat (length channelData) < 2 ^ 53 ->
  frame_rms channelData = 0%float.
Proof.
  intros Hs Hn. unfold frame_rms. rewrite (sum_squares_silent _ Hs).
  destruct (of_int_finite _ Hn) as (M & E & Hf).
  assert (Hq : (0 / of_int (Z.of_nat (length channelData)))%float = 0%float).
  { apply Prim2SF_inj. rewrite FloatAxioms.div_spec, Hf. reflexivity. }
  rewrite Hq. reflexivity.
Qed.

Lemma ltb_nan x : (x <? nan)%float = false.
Proof.
  rewrite FloatAxioms.ltb_spec. unfold SFltb.
  change (Prim2SF nan) with S754_nan.
  destruct (Prim2SF x); reflexivity.
Qed.

(** X21.  Silence never signals speech.  For a threshold that is not
    negative (0.005 in the constructor), a frame of zeros, of any length
    below 2^53, empty included, makes [process] post no [vad_signal]:
    what it posts is the volume, on every third callback, and chunks. *)
Theorem silence_posts_no_vad_signal
        (sampleRate : Z) (channelData : list float) (others : list (list float))
        (st : AudioProcessor) :
  Forall silent channelData ->
  Z.of_nat (length channelData) < 2 ^ 53 ->
  (vadThreshold st <? 0)%float = false ->
  exists posted,
    port (process sampleRate (channelData :: others) st) = port st ++ posted /\
    ~ In vad_signal posted.
Proof.
  intros Hs Hn Ht.
  assert (Hquiet : (vadThreshold st <? frame_rms channelData)%float = false).
  { destruct channelData as [|x l].
    - change (frame_rms []) with nan. apply ltb_nan.
    - rewrite frame_rms_silent; [exact Ht | exact Hs | cbn [length] in *; lia]. }
  destruct (only_chunks_resampling sampleRate channelData others st) as [_ [chunks H]].
  assert (Hchunks : ~ In vad_signal (map audio_data chunks)).
  { intros Hin. apply in_map_iff in Hin. destruct Hin as (c & Hc & _). discriminate. }
  rewrite H. unfold vad_stage. rewrite Hquiet.
  cbn [volumeSkipCounter set_volumeSkipCounter].
  destruct (3 <=? volumeSkipCounter st + 1)%Z;
    cbn [port set_volumeSkipCounter postMessage].
  - exists ([volume (frame_rms channelData)] ++ map audio_data chunks).
    split; [rewrite <- app_assoc; reflexivity|].
    intros [Hin|Hin]; [discriminate | exact (Hchunks Hin)].
  - exists (map audio_data chunks). split; [reflexivity | exact Hchunks].
Qed.

Lemma silence_posts_no_vad_signal_witness :
  exists posted,
    port (process 48000 [[0; -0; 0; 0]%float] constructor) = port constructor ++ posted /\
    ~ In vad_signal posted.
Proof.
  apply (silence_posts_no_vad_signal 48000 [0; -0; 0; 0]%float [] constructor).
  - repeat (apply Forall_cons; [unfold silent; auto|]). apply Forall_nil.
  - reflexivity.
  - reflexivity.
Defined.

End SilenceFacts.

(** ** The order of binary64 numbers *)

Section FloatOrder.
Import JS.
















End FloatOrder.

(** ** The linear-interpolation resampler in binary64: carry across calls *)

Section Linear64Facts.
Import JS Resampler64.










End Linear64Facts.
